(** * Per-process statistics probes: stats.c and stats-v2.c

    A shallow embedding of the two eBPF programs under stats/bpf.  Both keep a
    table [stats_map] from process id to a [stats_t] record of three unsigned
    64-bit counters; stats.c declares it as a plain hash map, stats-v2.c as a
    least-recently-used hash map, both with 1024 entries.

    The programs reach the table only through kernel helpers that hand out
    pointers into it, so the table is modelled as an explicit store threaded
    through a small state monad, and a non-null [struct stats_t *] as the key
    of the element whose value it addresses: two pointers obtained for the same
    id alias the same slot of the store. *)

From Stdlib Require Import ZArith List Bool Lia.
Import ListNotations.
Local Open Scope Z_scope.

(** ** Machine integers *)

(** Conversion to [__u32] and to [__u64]: reduction modulo the width. *)
Definition u32 (z : Z) : Z := z mod 2 ^ 32.
Definition u64 (z : Z) : Z := z mod 2 ^ 64.

(** ** The record *)

Record stats_t : Type := mk_stats {
  context_switches : Z;
  major_faults : Z;
  minor_faults : Z
}.

(** [struct stats_t zero = {}]. *)
Definition zero : stats_t :=
  {| context_switches := 0; major_faults := 0; minor_faults := 0 |}.

(** [stats->context_switches++], [stats->major_faults++] and
    [stats->minor_faults++] on the pointed-to record. *)
Definition incr_context_switches (s : stats_t) : stats_t :=
  {| context_switches := u64 (context_switches s + 1);
     major_faults := major_faults s;
     minor_faults := minor_faults s |}.

Definition incr_major_faults (s : stats_t) : stats_t :=
  {| context_switches := context_switches s;
     major_faults := u64 (major_faults s + 1);
     minor_faults := minor_faults s |}.

Definition incr_minor_faults (s : stats_t) : stats_t :=
  {| context_switches := context_switches s;
     major_faults := major_faults s;
     minor_faults := u64 (minor_faults s + 1) |}.

(** ** The table

    The elements are kept as an association list because the LRU variant needs
    their order: the head is the most recently touched element, the last one
    the least recently touched.  The hash variant never looks at the order. *)

Inductive bpf_map_type : Type :=
| BPF_MAP_TYPE_HASH
| BPF_MAP_TYPE_LRU_HASH.

Record bpf_map : Type := mk_map {
  map_type : bpf_map_type;
  max_entries : Z;
  elems : list (Z * stats_t)
}.

Definition with_elems (m : bpf_map) (l : list (Z * stats_t)) : bpf_map :=
  {| map_type := map_type m; max_entries := max_entries m; elems := l |}.

Fixpoint find_elem (key : Z) (l : list (Z * stats_t)) : option stats_t :=
  match l with
  | [] => None
  | (k, v) :: l' => if k =? key then Some v else find_elem key l'
  end.

Fixpoint remove_elem (key : Z) (l : list (Z * stats_t)) : list (Z * stats_t) :=
  match l with
  | [] => []
  | (k, v) :: l' =>
      if k =? key then remove_elem key l' else (k, v) :: remove_elem key l'
  end.

(** In-place rewrite of the value stored under [key]. *)
Fixpoint write_elem (key : Z) (f : stats_t -> stats_t) (l : list (Z * stats_t))
  : list (Z * stats_t) :=
  match l with
  | [] => []
  | (k, v) :: l' =>
      if k =? key then (k, f v) :: write_elem key f l'
      else (k, v) :: write_elem key f l'
  end.

Definition keys (l : list (Z * stats_t)) : list Z := map fst l.

(** ** The state monad of a program run *)

Definition bpf (A : Type) : Type := bpf_map -> A * bpf_map.

Definition ret {A : Type} (a : A) : bpf A := fun m => (a, m).

Definition bind {A B : Type} (c : bpf A) (k : A -> bpf B) : bpf B :=
  fun m => let (a, m') := c m in k a m'.

Declare Scope bpf_scope.
Delimit Scope bpf_scope with bpf.
Notation "x <- c ;; k" := (bind c (fun x => k))
  (at level 61, c at next level, right associativity) : bpf_scope.
Notation "c ;; k" := (bind c (fun _ => k))
  (at level 61, right associativity) : bpf_scope.
Local Open Scope bpf_scope.

(** ** Pointers into the table *)

(** A non-null [struct stats_t *]: the key of the element it points into. *)
Definition stats_ptr : Type := Z.

(** Reading the record behind a pointer. *)
Definition load (p : stats_ptr) (m : bpf_map) : option stats_t :=
  find_elem p (elems m).

(** Writing through a pointer: a plain memory write, which neither reorders
    nor creates elements. *)
Definition store (p : stats_ptr) (f : stats_t -> stats_t) : bpf unit :=
  fun m => (tt, with_elems m (write_elem p f (elems m))).

(** ** Kernel helpers *)

Inductive update_flags : Type := BPF_ANY.

Definition E2BIG : Z := 7.

(** Modelled from the spec: [bpf_map_lookup_elem] is a kernel helper, not part
    of the repository.  It yields a pointer to the record stored under [key],
    or null.  In the LRU table a successful lookup touches the element, which
    becomes the most recently used one. *)
Definition bpf_map_lookup_elem (key : Z) : bpf (option stats_ptr) :=
  fun m =>
    match find_elem key (elems m) with
    | None => (None, m)
    | Some v =>
        (Some key,
         match map_type m with
         | BPF_MAP_TYPE_HASH => m
         | BPF_MAP_TYPE_LRU_HASH =>
             with_elems m ((key, v) :: remove_elem key (elems m))
         end)
    end.

(** Modelled from the spec: [bpf_map_update_elem] is a kernel helper, not part
    of the repository.  With [BPF_ANY] it inserts or overwrites.  A new key
    needs a free entry: once [max_entries] elements are live the hash table
    rejects the insertion, and the LRU table evicts its least recently touched
    element to make room. *)
Definition bpf_map_update_elem (key : Z) (value : stats_t) (flags : update_flags)
  : bpf Z :=
  fun m =>
    match find_elem key (elems m) with
    | Some _ =>
        (0,
         match map_type m with
         | BPF_MAP_TYPE_HASH =>
             with_elems m (write_elem key (fun _ => value) (elems m))
         | BPF_MAP_TYPE_LRU_HASH =>
             with_elems m ((key, value) :: remove_elem key (elems m))
         end)
    | None =>
        if Z.of_nat (length (elems m)) <? max_entries m
        then (0, with_elems m ((key, value) :: elems m))
        else
          match map_type m with
          | BPF_MAP_TYPE_HASH => (- E2BIG, m)
          | BPF_MAP_TYPE_LRU_HASH =>
              (0, with_elems m ((key, value) :: removelast (elems m)))
          end
    end.

(** ** Event payloads *)

(** Modelled from the spec: [struct trace_event_raw_sched_switch] comes from
    vmlinux.h, which is not part of the repository.  Only the outgoing and the
    incoming process id are read. *)
Record trace_event_raw_sched_switch : Type := mk_sched_switch {
  prev_pid : Z;
  next_pid : Z
}.

Record trace_event_raw_page_fault_user : Type := mk_page_fault_user {
  common_type : Z;
  common_flags : Z;
  common_preempt_count : Z;
  common_pid : Z;
  address : Z;
  ip : Z;
  error_code : Z
}.

(** ** stats.c *)

Module Stats.

Definition stats_map : bpf_map :=
  {| map_type := BPF_MAP_TYPE_HASH; max_entries := 1024; elems := [] |}.

Definition get_or_init_stats (pid : Z) : bpf (option stats_ptr) :=
  stats <- bpf_map_lookup_elem pid ;;
  match stats with
  | None =>
      bpf_map_update_elem pid zero BPF_ANY ;;
      stats <- bpf_map_lookup_elem pid ;;
      match stats with
      | None => ret None
      | Some p => ret (Some p)
      end
  | Some p => ret (Some p)
  end.

(** A null [ctx] is [None].  The ids are converted to the [__u32] parameter
    of [get_or_init_stats] at each call. *)
Definition count_context_switches (ctx : option trace_event_raw_sched_switch)
  : bpf Z :=
  match ctx with
  | None => ret 0
  | Some c =>
      prev_stats <- get_or_init_stats (u32 (prev_pid c)) ;;
      match prev_stats with
      | Some p => store p incr_context_switches
      | None => ret tt
      end ;;
      next_stats <- get_or_init_stats (u32 (next_pid c)) ;;
      match next_stats with
      | Some p => store p incr_context_switches
      | None => ret tt
      end ;;
      ret 0
  end.

(** The table after a sequence of scheduler events, oldest first. *)
Definition run (evs : list (option trace_event_raw_sched_switch))
  (m : bpf_map) : bpf_map :=
  fold_left (fun t ctx => snd (count_context_switches ctx t)) evs m.

End Stats.

(** ** stats-v2.c *)

Module StatsV2.

Definition stats_map : bpf_map :=
  {| map_type := BPF_MAP_TYPE_LRU_HASH; max_entries := 1024; elems := [] |}.

Definition get_or_init_stats (pid : Z) : bpf (option stats_ptr) :=
  stats <- bpf_map_lookup_elem pid ;;
  match stats with
  | None =>
      bpf_map_update_elem pid zero BPF_ANY ;;
      stats <- bpf_map_lookup_elem pid ;;
      match stats with
      | None => ret None
      | Some p => ret (Some p)
      end
  | Some p => ret (Some p)
  end.

Definition count_context_switches (ctx : option trace_event_raw_sched_switch)
  : bpf Z :=
  match ctx with
  | None => ret 0
  | Some c =>
      prev_stats <- get_or_init_stats (u32 (prev_pid c)) ;;
      match prev_stats with
      | Some p => store p incr_context_switches
      | None => ret tt
      end ;;
      next_stats <- get_or_init_stats (u32 (next_pid c)) ;;
      match next_stats with
      | Some p => store p incr_context_switches
      | None => ret tt
      end ;;
      ret 0
  end.

(** [pid_tgid] is what [bpf_get_current_pid_tgid()] returns in the context
    the hook runs in; its upper half is the process id. *)
Definition count_page_faults (pid_tgid : Z)
  (ctx : option trace_event_raw_page_fault_user) : bpf Z :=
  match ctx with
  | None => ret 0
  | Some c =>
      let pid := u32 (Z.shiftr (u64 pid_tgid) 32) in
      stats <- get_or_init_stats pid ;;
      match stats with
      | None => ret 0
      | Some p =>
          (if negb (Z.land (error_code c) 1 =? 0)
           then store p incr_minor_faults
           else store p incr_major_faults) ;;
          ret 0
      end
  end.

Inductive event : Type :=
| sched_switch (ctx : option trace_event_raw_sched_switch)
| page_fault_user (pid_tgid : Z) (ctx : option trace_event_raw_page_fault_user).

Definition handle (ev : event) : bpf Z :=
  match ev with
  | sched_switch ctx => count_context_switches ctx
  | page_fault_user pid_tgid ctx => count_page_faults pid_tgid ctx
  end.

(** The table after a sequence of events, oldest first. *)
Definition run (evs : list event) (m : bpf_map) : bpf_map :=
  fold_left (fun t ev => snd (handle ev t)) evs m.

End StatsV2.

(** ** Notions used to state the properties *)

(** The aggregator's resolve-or-create as the design describes it, step by
    step on the table: look up; on a miss insert a zero record with
    insert-or-overwrite semantics and look up once more; a second miss is
    reported as absent. *)
Definition resolve_or_create (id : Z) (t : bpf_map)
  : option stats_ptr * bpf_map :=
  match bpf_map_lookup_elem id t with
  | (Some record, t1) => (Some record, t1)
  | (None, t1) =>
      let t2 := snd (bpf_map_update_elem id zero BPF_ANY t1) in
      match bpf_map_lookup_elem id t2 with
      | (Some record, t3) => (Some record, t3)
      | (None, t3) => (None, t3)
      end
  end.

(** What an event owes one id: resolve-or-create its record and, when there is
    one, apply the increment [f] to it. *)
Definition account (f : stats_t -> stats_t) (id : Z) (t : bpf_map) : bpf_map :=
  match Stats.get_or_init_stats id t with
  | (Some p, t1) => snd (store p f t1)
  | (None, t1) => t1
  end.

(** For a context switch the increment is that of [context_switches]. *)
Definition account_switch : Z -> bpf_map -> bpf_map :=
  account incr_context_switches.

(** For a page fault, bit 0 of the error code picks the counter. *)
Definition classify (code : Z) : stats_t -> stats_t :=
  if Z.testbit code 0 then incr_minor_faults else incr_major_faults.

(** The process id in the upper half of a [pid_tgid] value. *)
Definition current_pid (pid_tgid : Z) : Z := u32 (Z.shiftr (u64 pid_tgid) 32).

(** No id is stored twice. *)
Fixpoint distinct_keys (l : list (Z * stats_t)) : bool :=
  match l with
  | [] => true
  | (k, _) :: l' =>
      match find_elem k l' with
      | None => distinct_keys l'
      | Some _ => false
      end
  end.

(** The id the LRU table gives up next: that of its last element. *)
Definition lru_victim (m : bpf_map) : option Z :=
  match rev (elems m) with
  | [] => None
  | (k, _) :: _ => Some k
  end.

(** The record resolve-or-create hands out for [id]: the one already stored, or
    the zero record it creates. *)
Definition record_or_zero (id : Z) (t : bpf_map) : stats_t :=
  match load id t with
  | Some v => v
  | None => zero
  end.

(** The number of ids a table may hold at once, and that many or fewer held. *)
Definition within_capacity (m : bpf_map) : Prop :=
  max_entries m = 1024 /\ (length (elems m) <= 1024)%nat.

(** The three counters by name. *)
Inductive field : Type := ContextSwitches | MajorFaults | MinorFaults.

Definition counter (f : field) (s : stats_t) : Z :=
  match f with
  | ContextSwitches => context_switches s
  | MajorFaults => major_faults s
  | MinorFaults => minor_faults s
  end.

Definition incr_field (f : field) : stats_t -> stats_t :=
  match f with
  | ContextSwitches => incr_context_switches
  | MajorFaults => incr_major_faults
  | MinorFaults => incr_minor_faults
  end.

Definition in_u64 (z : Z) : Prop := 0 <= z < 2 ^ 64.

Definition stats_in_range (s : stats_t) : Prop :=
  in_u64 (context_switches s) /\ in_u64 (major_faults s) /\
  in_u64 (minor_faults s).

(** The operations the hooks are made of: a resolve-or-create, and an
    increment of one counter through a pointer. *)
Inductive core_op : Type :=
| Resolve (id : Z)
| Incr (f : field) (p : stats_ptr).

Definition exec_op (op : core_op) (m : bpf_map) : bpf_map :=
  match op with
  | Resolve id => snd (Stats.get_or_init_stats id m)
  | Incr f p => snd (store p (incr_field f) m)
  end.

Definition exec_ops (ops : list core_op) (m : bpf_map) : bpf_map :=
  fold_left (fun t op => exec_op op t) ops m.

(** A property shared by every record of a table. *)
Definition all_records (Q : stats_t -> Prop) (m : bpf_map) : Prop :=
  forall k v, In (k, v) (elems m) -> Q v.

(** The hash table in which ids 1 and 2 have both been switched [x] times. *)
Definition switched (x : Z) : bpf_map :=
  {| map_type := BPF_MAP_TYPE_HASH; max_entries := 1024;
     elems :=
       [(2, {| context_switches := x; major_faults := 0; minor_faults := 0 |});
        (1, {| context_switches := x; major_faults := 0; minor_faults := 0 |})]
  |}.

(** A table holding the ids 1 .. [n], each with a zero record, id 1 being the
    most recently touched. *)
Definition table_of (ty : bpf_map_type) (n : nat) : bpf_map :=
  {| map_type := ty; max_entries := 1024;
     elems := map (fun i => (Z.of_nat i, zero)) (seq 1 n) |}.

Definition switch (prev next : Z) : option trace_event_raw_sched_switch :=
  Some {| prev_pid := prev; next_pid := next |}.

Definition fault (code : Z) : option trace_event_raw_page_fault_user :=
  Some {| common_type := 0; common_flags := 0; common_preempt_count := 0;
          common_pid := 0; address := 0; ip := 0; error_code := code |}.

(** The table a successful lookup of [id] leaves behind. *)
Definition touched (id : Z) (v : stats_t) (m : bpf_map) : bpf_map :=
  match map_type m with
  | BPF_MAP_TYPE_HASH => m
  | BPF_MAP_TYPE_LRU_HASH => with_elems m ((id, v) :: remove_elem id (elems m))
  end.

(** ** What a run of events asks of the table *)

(** The accountings a scheduler event makes, in order: which counter of which
    id.  It names the outgoing and the incoming id; a null payload names
    nothing. *)
Definition switch_accountings (ctx : option trace_event_raw_sched_switch)
  : list (field * Z) :=
  match ctx with
  | None => []
  | Some c =>
      [(ContextSwitches, u32 (prev_pid c));
       (ContextSwitches, u32 (next_pid c))]
  end.

Definition run_accountings (accs : list (field * Z)) (m : bpf_map) : bpf_map :=
  fold_left (fun t a => account (incr_field (fst a)) (snd a) t) accs m.

Definition field_eqb (f g : field) : bool :=
  match f, g with
  | ContextSwitches, ContextSwitches
  | MajorFaults, MajorFaults
  | MinorFaults, MinorFaults => true
  | _, _ => false
  end.

(** How often counter [f] of id [k] is asked for. *)
Fixpoint times (f : field) (k : Z) (accs : list (field * Z)) : Z :=
  match accs with
  | [] => 0
  | (g, id) :: rest =>
      (if field_eqb f g && (id =? k) then 1 else 0) + times f k rest
  end.

(** Whether id [k] is named at all. *)
Definition named (k : Z) (accs : list (field * Z)) : bool :=
  existsb (fun a => snd a =? k) accs.

(** The record an id ends up with when every accounting is honoured. *)
Definition tally (k : Z) (accs : list (field * Z)) : option stats_t :=
  if named k accs
  then Some {| context_switches := u64 (times ContextSwitches k accs);
               major_faults := u64 (times MajorFaults k accs);
               minor_faults := u64 (times MinorFaults k accs) |}
  else None.

(** The distinct ids named. *)
Definition ids_of (accs : list (field * Z)) : list Z :=
  nodup Z.eq_dec (map snd accs).

(** One accounting seen from id [k]: its record is created or incremented if
    the accounting names it, and left alone otherwise. *)
Definition bump (k : Z) (r : option stats_t) (a : field * Z) : option stats_t :=
  if snd a =? k
  then Some (incr_field (fst a) (match r with Some v => v | None => zero end))
  else r.

(** [context_switches++] applied or not. *)
Definition incr_if (b : bool) (s : stats_t) : stats_t :=
  if b then incr_context_switches s else s.

(** ** The hooks as lists of core operations *)

(** Resolve-or-create an id and, if that gives a record, increment counter
    [f] through the pointer: one or two operations. *)
Definition resolve_incr_ops (f : field) (id : Z) (m : bpf_map) : list core_op :=
  match fst (Stats.get_or_init_stats id m) with
  | Some p => [Resolve id; Incr f p]
  | None => [Resolve id]
  end.

(** The operations of the scheduler hook on table [m]: those for the outgoing
    id, then those for the incoming id on the table the first ones leave. *)
Definition switch_ops (ctx : option trace_event_raw_sched_switch) (m : bpf_map)
  : list core_op :=
  match ctx with
  | None => []
  | Some c =>
      resolve_incr_ops ContextSwitches (u32 (prev_pid c)) m ++
      resolve_incr_ops ContextSwitches (u32 (next_pid c))
        (exec_ops (resolve_incr_ops ContextSwitches (u32 (prev_pid c)) m) m)
  end.

(** The operations of the page-fault hook on table [m]. *)
Definition fault_ops (pid_tgid : Z)
  (ctx : option trace_event_raw_page_fault_user) (m : bpf_map) : list core_op :=
  match ctx with
  | None => []
  | Some c =>
      resolve_incr_ops
        (if Z.testbit (error_code c) 0 then MinorFaults else MajorFaults)
        (current_pid pid_tgid) m
  end.

(** The tables a list of operations goes through, the first and the last
    included. *)
Fixpoint states (ops : list core_op) (m : bpf_map) : list bpf_map :=
  match ops with
  | [] => [m]
  | op :: ops' => m :: states ops' (exec_op op m)
  end.

(** Id [k] can be read in every one of those tables: its record is never given
    up on the way. *)
Definition live_throughout (k : Z) (ops : list core_op) (m : bpf_map) : bool :=
  forallb (fun t => match load k t with Some _ => true | None => false end)
    (states ops m).

(** How many of the operations increment counter [f] of id [k]. *)
Fixpoint incrs (f : field) (k : Z) (ops : list core_op) : Z :=
  match ops with
  | [] => 0
  | Resolve _ :: ops' => incrs f k ops'
  | Incr g p :: ops' =>
      (if field_eqb f g && (p =? k) then 1 else 0) + incrs f k ops'
  end.

(** * Properties *)

(** ** Association lists *)

Section AssocList.

Implicit Types (l : list (Z * stats_t)) (k key : Z).

Lemma find_elem_remove_same key l : find_elem key (remove_elem key l) = None.
Proof.
  induction l as [|[k v] l IH]; simpl; auto.
  destruct (k =? key) eqn:E; simpl; auto. now rewrite E.
Qed.

Lemma find_elem_remove_other key k l :
  k <> key -> find_elem k (remove_elem key l) = find_elem k l.
Proof.
  intros Hne. induction l as [|[k' v] l IH]; simpl; auto.
  destruct (k' =? key) eqn:E; simpl.
  - apply Z.eqb_eq in E. subst k'.
    destruct (key =? k) eqn:E'; auto. apply Z.eqb_eq in E'. congruence.
  - now rewrite IH.
Qed.

Lemma find_elem_write_same key f l :
  find_elem key (write_elem key f l) = option_map f (find_elem key l).
Proof.
  induction l as [|[k v] l IH]; simpl; auto.
  destruct (k =? key) eqn:E; simpl; rewrite E; auto.
Qed.

Lemma find_elem_write_other key k f l :
  k <> key -> find_elem k (write_elem key f l) = find_elem k l.
Proof.
  intros Hne. induction l as [|[k' v] l IH]; simpl; auto.
  destruct (k' =? key) eqn:E; simpl; rewrite IH; auto.
  apply Z.eqb_eq in E. subst k'.
  destruct (key =? k) eqn:E'; auto. apply Z.eqb_eq in E'. congruence.
Qed.

Lemma keys_write key f l : keys (write_elem key f l) = keys l.
Proof.
  induction l as [|[k v] l IH]; simpl; auto.
  destruct (k =? key); simpl; now rewrite IH.
Qed.

Lemma length_write key f l : length (write_elem key f l) = length l.
Proof.
  induction l as [|[k v] l IH]; simpl; auto.
  destruct (k =? key); simpl; now rewrite IH.
Qed.

Lemma write_elem_absent key f l :
  find_elem key l = None -> write_elem key f l = l.
Proof.
  induction l as [|[k v] l IH]; simpl; auto.
  destruct (k =? key); [discriminate|]. intros H. now rewrite IH.
Qed.

Lemma remove_elem_absent key l :
  find_elem key l = None -> remove_elem key l = l.
Proof.
  induction l as [|[k v] l IH]; simpl; auto.
  destruct (k =? key); [discriminate|]. intros H. now rewrite IH.
Qed.

Lemma length_remove key l : (length (remove_elem key l) <= length l)%nat.
Proof.
  induction l as [|[k v] l IH]; simpl; auto.
  destruct (k =? key); simpl; lia.
Qed.

Lemma length_remove_present key l v :
  find_elem key l = Some v -> (length (remove_elem key l) < length l)%nat.
Proof.
  induction l as [|[k w] l IH]; simpl; [discriminate|].
  destruct (k =? key); simpl; intros H.
  - pose proof (length_remove key l). lia.
  - apply IH in H. lia.
Qed.

Lemma find_elem_In key l v : find_elem key l = Some v -> In (key, v) l.
Proof.
  induction l as [|[k w] l IH]; simpl; [discriminate|].
  destruct (k =? key) eqn:E; intros H.
  - apply Z.eqb_eq in E. inversion H. subst. now left.
  - right. auto.
Qed.

Lemma In_remove_elem key l kv : In kv (remove_elem key l) -> In kv l.
Proof.
  induction l as [|[k w] l IH]; simpl; auto.
  destruct (k =? key); simpl; intuition.
Qed.

Lemma In_write_elem key f l kv :
  In kv (write_elem key f l) ->
  In kv l \/ exists v, In (fst kv, v) l /\ snd kv = f v.
Proof.
  induction l as [|[k w] l IH]; simpl; auto.
  destruct (k =? key); simpl; intros [H|H].
  - subst kv. right. exists w. simpl. auto.
  - destruct (IH H) as [H'|(v & H1 & H2)]; auto. right. exists v. auto.
  - auto.
  - destruct (IH H) as [H'|(v & H1 & H2)]; auto. right. exists v. auto.
Qed.

Lemma In_removelast l kv : In kv (removelast l) -> In kv l.
Proof.
  induction l as [|a l IH]; simpl; auto.
  destruct l as [|b l]; simpl in *; intuition.
Qed.

Lemma length_removelast_cons l a :
  length (removelast (a :: l)) = length l.
Proof.
  revert a. induction l as [|b l IH]; intros a; auto.
  change (removelast (a :: b :: l)) with (a :: removelast (b :: l)).
  simpl length. f_equal. apply IH.
Qed.

Lemma find_elem_app key l1 l2 :
  find_elem key (l1 ++ l2) =
  match find_elem key l1 with
  | Some v => Some v
  | None => find_elem key l2
  end.
Proof.
  induction l1 as [|[k v] l1 IH]; simpl; auto.
  destruct (k =? key); auto.
Qed.

Lemma find_elem_removelast_absent key l :
  find_elem key l = None -> find_elem key (removelast l) = None.
Proof.
  induction l as [|[k v] l IH]; auto.
  destruct l as [|b l]; auto.
  change (removelast ((k, v) :: b :: l)) with ((k, v) :: removelast (b :: l)).
  remember (b :: l) as l0. simpl.
  destruct (k =? key); [discriminate|]. exact IH.
Qed.

Lemma find_elem_removelast_some key l v :
  find_elem key (removelast l) = Some v -> find_elem key l = Some v.
Proof.
  induction l as [|[k w] l IH]; auto.
  destruct l as [|b l]; [discriminate|].
  change (removelast ((k, w) :: b :: l)) with ((k, w) :: removelast (b :: l)).
  remember (b :: l) as l0. simpl.
  destruct (k =? key); auto.
Qed.

Lemma distinct_keys_app_last l k v :
  distinct_keys (l ++ [(k, v)]) = true ->
  distinct_keys l = true /\ find_elem k l = None.
Proof.
  induction l as [|[k' w] l IH]; simpl; auto.
  rewrite find_elem_app.
  destruct (find_elem k' l) eqn:E; [discriminate|]. simpl.
  destruct (k =? k') eqn:E'; [discriminate|].
  intros H. apply IH in H. destruct H as [H1 H2]. split; auto.
  rewrite Z.eqb_sym, E'. exact H2.
Qed.

Lemma distinct_keys_remove key l :
  distinct_keys l = true -> distinct_keys (remove_elem key l) = true.
Proof.
  induction l as [|[k v] l IH]; simpl; auto.
  destruct (find_elem k l) eqn:E; [discriminate|]. intros H.
  destruct (k =? key) eqn:E'; auto. simpl.
  rewrite find_elem_remove_other, E; auto.
  apply Z.eqb_neq in E'. congruence.
Qed.

Lemma distinct_keys_write key f l :
  distinct_keys (write_elem key f l) = distinct_keys l.
Proof.
  induction l as [|[k v] l IH]; simpl; auto.
  destruct (k =? key) eqn:E; simpl.
  - apply Z.eqb_eq in E. subst k. rewrite find_elem_write_same, IH.
    now destruct (find_elem key l).
  - apply Z.eqb_neq in E. rewrite find_elem_write_other, IH; auto.
Qed.

Lemma distinct_keys_removelast l :
  distinct_keys l = true -> distinct_keys (removelast l) = true.
Proof.
  induction l as [|[k v] l IH]; auto.
  destruct l as [|b l]; auto.
  change (removelast ((k, v) :: b :: l)) with ((k, v) :: removelast (b :: l)).
  remember (b :: l) as l0. simpl.
  destruct (find_elem k l0) eqn:E; [discriminate|].
  rewrite find_elem_removelast_absent; auto.
Qed.

(** The last element of a non-empty list without repeated ids: its id is the
    one id that [removelast] makes unreadable. *)
Lemma removelast_victim l :
  l <> [] -> distinct_keys l = true ->
  exists k v,
    rev l = (k, v) :: rev (removelast l) /\
    find_elem k l = Some v /\
    find_elem k (removelast l) = None /\
    forall k', k' <> k -> find_elem k' (removelast l) = find_elem k' l.
Proof.
  intros Hne Hd.
  destruct (exists_last Hne) as (l' & [k v] & ->).
  rewrite removelast_last, rev_unit.
  apply distinct_keys_app_last in Hd. destruct Hd as [_ Hk].
  exists k, v. repeat split; auto.
  - rewrite find_elem_app, Hk. simpl. now rewrite Z.eqb_refl.
  - intros k' Hk'. rewrite find_elem_app. simpl.
    destruct (find_elem k' l'); auto.
    destruct (k =? k') eqn:E; auto. apply Z.eqb_eq in E. congruence.
Qed.

End AssocList.

(** ** Resolve-or-create in closed form *)

Lemma with_elems_id m : with_elems m (elems m) = m.
Proof. now destruct m. Qed.

(** The two files carry the same aggregator and the same scheduler hook. *)
Lemma get_or_init_stats_v2 :
  StatsV2.get_or_init_stats = Stats.get_or_init_stats.
Proof. reflexivity. Qed.

Lemma count_context_switches_v2 :
  StatsV2.count_context_switches = Stats.count_context_switches.
Proof. reflexivity. Qed.

Lemma get_or_init_stats_cases id m :
  Stats.get_or_init_stats id m =
  match load id m with
  | Some v => (Some id, touched id v m)
  | None =>
      if Z.of_nat (length (elems m)) <? max_entries m
      then (Some id, with_elems m ((id, zero) :: elems m))
      else
        match map_type m with
        | BPF_MAP_TYPE_HASH => (None, m)
        | BPF_MAP_TYPE_LRU_HASH =>
            (Some id, with_elems m ((id, zero) :: removelast (elems m)))
        end
  end.
Proof.
  unfold Stats.get_or_init_stats, bind, bpf_map_lookup_elem at 1, load.
  destruct (find_elem id (elems m)) eqn:E; [reflexivity|].
  unfold bpf_map_update_elem. rewrite E.
  destruct (Z.of_nat (length (elems m)) <? max_entries m).
  - unfold bpf_map_lookup_elem, ret. simpl. rewrite Z.eqb_refl.
    destruct (map_type m); auto.
    now rewrite remove_elem_absent.
  - destruct (map_type m) eqn:T.
    + unfold bpf_map_lookup_elem, ret. now rewrite E.
    + unfold bpf_map_lookup_elem, ret. simpl. rewrite Z.eqb_refl.
      rewrite T, remove_elem_absent; auto.
      now apply find_elem_removelast_absent.
Qed.

Lemma load_touched k id v m :
  load id m = Some v -> load k (touched id v m) = load k m.
Proof.
  unfold touched, load. intros H. destruct (map_type m); auto. simpl.
  destruct (id =? k) eqn:E.
  - apply Z.eqb_eq in E. now subst k.
  - apply Z.eqb_neq in E. apply find_elem_remove_other. congruence.
Qed.

Lemma length_touched id v m :
  load id m = Some v ->
  (length (elems (touched id v m)) <= length (elems m))%nat.
Proof.
  unfold touched, load. intros H. destruct (map_type m); auto. simpl.
  apply length_remove_present in H. lia.
Qed.

Lemma distinct_keys_touched id v m :
  distinct_keys (elems m) = true ->
  distinct_keys (elems (touched id v m)) = true.
Proof.
  unfold touched. intros H. destruct (map_type m); auto. simpl.
  rewrite find_elem_remove_same. now apply distinct_keys_remove.
Qed.

(** Touching the element that is already the most recent one changes nothing. *)
Lemma touched_head id v l ty n :
  distinct_keys ((id, v) :: l) = true ->
  touched id v (mk_map ty n ((id, v) :: l)) = mk_map ty n ((id, v) :: l).
Proof.
  unfold touched, with_elems. simpl. intros H. destruct ty; auto.
  rewrite Z.eqb_refl. destruct (find_elem id l) eqn:E; [discriminate|].
  now rewrite remove_elem_absent.
Qed.

(** A resolved pointer is that of the id asked for, and the record behind it is
    the one the table held, or a zero record if it held none. *)
Lemma get_or_init_stats_some id m p m1 :
  Stats.get_or_init_stats id m = (Some p, m1) ->
  p = id /\
  load p m1 = Some (match load id m with Some v => v | None => zero end).
Proof.
  rewrite get_or_init_stats_cases.
  destruct (load id m) as [v|] eqn:E.
  - intros H. inversion H. subst. split; auto. now rewrite load_touched.
  - destruct (Z.of_nat (length (elems m)) <? max_entries m).
    + intros H. inversion H. subst. split; auto.
      unfold load. simpl. now rewrite Z.eqb_refl.
    + destruct (map_type m); intros H; inversion H. subst. split; auto.
      unfold load. simpl. now rewrite Z.eqb_refl.
Qed.

(** Resolve-or-create never rewrites a record: whatever can still be read
    afterwards under another id is what could be read before. *)
Lemma get_or_init_stats_others id m k s :
  k <> id ->
  load k (snd (Stats.get_or_init_stats id m)) = Some s ->
  load k m = Some s.
Proof.
  intros Hk. rewrite get_or_init_stats_cases.
  destruct (load id m) as [v|] eqn:E; simpl.
  - now rewrite load_touched.
  - destruct (Z.of_nat (length (elems m)) <? max_entries m); simpl.
    + unfold load. simpl. destruct (id =? k) eqn:E'; auto.
      apply Z.eqb_eq in E'. congruence.
    + destruct (map_type m); simpl; auto.
      unfold load. simpl. destruct (id =? k) eqn:E'.
      * apply Z.eqb_eq in E'. congruence.
      * apply find_elem_removelast_some.
Qed.

Lemma get_or_init_stats_attrs id m :
  map_type (snd (Stats.get_or_init_stats id m)) = map_type m /\
  max_entries (snd (Stats.get_or_init_stats id m)) = max_entries m.
Proof.
  rewrite get_or_init_stats_cases. unfold touched.
  destruct (load id m); [destruct (map_type m) eqn:T; simpl; auto|].
  destruct (Z.of_nat (length (elems m)) <? max_entries m); simpl; auto.
  destruct (map_type m) eqn:T; simpl; auto.
Qed.

Lemma get_or_init_stats_distinct id m :
  distinct_keys (elems m) = true ->
  distinct_keys (elems (snd (Stats.get_or_init_stats id m))) = true.
Proof.
  intros H. rewrite get_or_init_stats_cases.
  destruct (load id m) as [v|] eqn:E; simpl.
  - now apply distinct_keys_touched.
  - unfold load in E.
    destruct (Z.of_nat (length (elems m)) <? max_entries m); simpl.
    + now rewrite E.
    + destruct (map_type m); simpl; auto.
      rewrite find_elem_removelast_absent; auto.
      now apply distinct_keys_removelast.
Qed.

Lemma get_or_init_stats_length id m :
  (length (elems m) <= 1024)%nat -> max_entries m = 1024 ->
  (length (elems (snd (Stats.get_or_init_stats id m))) <= 1024)%nat.
Proof.
  intros Hlen Hmax. rewrite get_or_init_stats_cases.
  destruct (load id m) as [v|] eqn:E; simpl.
  - pose proof (length_touched _ _ _ E). lia.
  - rewrite Hmax.
    destruct (Z.of_nat (length (elems m)) <? 1024) eqn:L; simpl.
    + apply Z.ltb_lt in L. lia.
    + destruct (map_type m); simpl; auto.
      destruct (elems m) as [|a l] eqn:El; [simpl; lia|].
      rewrite length_removelast_cons. simpl in Hlen. lia.
Qed.

(** Writing through a pointer. *)
Lemma load_store_same p f m :
  load p (snd (store p f m)) = option_map f (load p m).
Proof. unfold load, store. simpl. apply find_elem_write_same. Qed.

Lemma load_store_other p k f m :
  k <> p -> load k (snd (store p f m)) = load k m.
Proof. unfold load, store. simpl. now apply find_elem_write_other. Qed.

Lemma store_absent p f m : load p m = None -> snd (store p f m) = m.
Proof.
  unfold load, store. simpl. intros H.
  rewrite write_elem_absent; auto. apply with_elems_id.
Qed.

(** ** The hooks as compositions of per-id accounting *)

Lemma count_context_switches_account c m :
  Stats.count_context_switches (Some c) m =
  (0, account_switch (u32 (next_pid c)) (account_switch (u32 (prev_pid c)) m)).
Proof.
  unfold Stats.count_context_switches, account_switch, account, bind, ret.
  destruct (Stats.get_or_init_stats (u32 (prev_pid c)) m) as [[p|] m1]; simpl.
  - destruct (Stats.get_or_init_stats (u32 (next_pid c)) _) as [[q|] m2];
      reflexivity.
  - destruct (Stats.get_or_init_stats (u32 (next_pid c)) m1) as [[q|] m2];
      reflexivity.
Qed.

Lemma land_1_testbit x : negb (Z.land x 1 =? 0) = Z.testbit x 0.
Proof.
  change 1 with (Z.ones 1). rewrite Z.land_ones by lia.
  change (2 ^ 1) with 2. rewrite <- Z.bit0_mod.
  now destruct (Z.testbit x 0).
Qed.

Lemma count_page_faults_account pid_tgid c m :
  StatsV2.count_page_faults pid_tgid (Some c) m =
  (0, account (classify (error_code c)) (current_pid pid_tgid) m).
Proof.
  unfold StatsV2.count_page_faults, account, classify, current_pid, bind, ret.
  rewrite get_or_init_stats_v2, land_1_testbit.
  destruct (Stats.get_or_init_stats _ m) as [[p|] m1]; auto.
  destruct (Z.testbit (error_code c) 0); reflexivity.
Qed.

Section Account.

Variable f : stats_t -> stats_t.
Variables (id : Z) (m : bpf_map).

Lemma account_attrs :
  map_type (account f id m) = map_type m /\
  max_entries (account f id m) = max_entries m.
Proof.
  unfold account. pose proof (get_or_init_stats_attrs id m) as H.
  destruct (Stats.get_or_init_stats id m) as [[p|] m1]; simpl in *; auto.
Qed.

Lemma account_length :
  (length (elems m) <= 1024)%nat -> max_entries m = 1024 ->
  (length (elems (account f id m)) <= 1024)%nat.
Proof.
  intros Hl Hm. unfold account.
  pose proof (get_or_init_stats_length id m Hl Hm) as H.
  destruct (Stats.get_or_init_stats id m) as [[p|] m1]; simpl in *; auto.
  now rewrite length_write.
Qed.

Lemma account_distinct :
  distinct_keys (elems m) = true ->
  distinct_keys (elems (account f id m)) = true.
Proof.
  intros Hd. unfold account.
  pose proof (get_or_init_stats_distinct id m Hd) as H.
  destruct (Stats.get_or_init_stats id m) as [[p|] m1]; simpl in *; auto.
  now rewrite distinct_keys_write.
Qed.

(** The accounted id, once resolved, reads back its record with [f] applied. *)
Lemma load_account_same p m1 :
  Stats.get_or_init_stats id m = (Some p, m1) ->
  load id (account f id m) =
  Some (f (match load id m with Some v => v | None => zero end)).
Proof.
  intros H. unfold account. rewrite H.
  apply get_or_init_stats_some in H. destruct H as [-> H].
  now rewrite load_store_same, H.
Qed.

(** Any other id that can still be read reads what it read before. *)
Lemma load_account_other k s :
  k <> id -> load k (account f id m) = Some s -> load k m = Some s.
Proof.
  intros Hk. unfold account.
  pose proof (get_or_init_stats_others id m k s Hk) as H.
  destruct (Stats.get_or_init_stats id m) as [[p|] m1] eqn:G; cbn [snd] in H;
    auto.
  apply get_or_init_stats_some in G. destruct G as [-> _].
  rewrite (load_store_other _ _ f m1 Hk). exact H.
Qed.

End Account.

Lemma get_or_init_stats_present id m v :
  load id m = Some v ->
  Stats.get_or_init_stats id m = (Some id, touched id v m).
Proof. intros H. now rewrite get_or_init_stats_cases, H. Qed.

Lemma get_or_init_stats_resolved id m :
  fst (Stats.get_or_init_stats id m) <> None ->
  exists m1, Stats.get_or_init_stats id m = (Some id, m1).
Proof.
  destruct (Stats.get_or_init_stats id m) as [[p|] m1] eqn:G; simpl.
  - intros _. exists m1. apply get_or_init_stats_some in G. now destruct G as [-> _].
  - congruence.
Qed.

(** In the LRU table a resolved id is the most recently touched one. *)
Lemma get_or_init_stats_head id m p m1 :
  Stats.get_or_init_stats id m = (Some p, m1) ->
  map_type m = BPF_MAP_TYPE_LRU_HASH ->
  exists v l, elems m1 = (id, v) :: l.
Proof.
  rewrite get_or_init_stats_cases. intros H T. unfold touched in H.
  rewrite T in H. destruct (load id m).
  - inversion H. simpl. eauto.
  - destruct (Z.of_nat (length (elems m)) <? max_entries m);
      inversion H; simpl; eauto.
Qed.

Lemma account_head f id m :
  fst (Stats.get_or_init_stats id m) <> None ->
  map_type m = BPF_MAP_TYPE_LRU_HASH ->
  exists v l, elems (account f id m) = (id, v) :: l.
Proof.
  intros R T. apply get_or_init_stats_resolved in R. destruct R as [m1 G].
  unfold account. rewrite G.
  destruct (get_or_init_stats_head _ _ _ _ G T) as (v & l & E).
  simpl. rewrite E. simpl. rewrite Z.eqb_refl. eauto.
Qed.

(** Accounting for another id does not cost the most recently touched id its
    record, as long as the table has room for two. *)
Lemma account_keeps_recent f id k m v :
  k <> id -> 2 <= max_entries m -> load k m = Some v ->
  (map_type m = BPF_MAP_TYPE_LRU_HASH -> exists l, elems m = (k, v) :: l) ->
  load k (account f id m) = Some v.
Proof.
  intros Hk Hcap Hv Hhead. unfold account. rewrite get_or_init_stats_cases.
  destruct (load id m) as [w|] eqn:E.
  - now rewrite load_store_other, load_touched.
  - destruct (Z.of_nat (length (elems m)) <? max_entries m) eqn:L.
    + rewrite load_store_other by auto. unfold load. simpl.
      destruct (id =? k) eqn:E'; auto. apply Z.eqb_eq in E'. congruence.
    + destruct (map_type m) eqn:T; auto.
      rewrite load_store_other by auto. unfold load. simpl.
      destruct (id =? k) eqn:E'; [apply Z.eqb_eq in E'; congruence|].
      destruct (Hhead eq_refl) as [l El]. rewrite El in *.
      apply Z.ltb_ge in L. simpl length in L.
      destruct l as [|b l]; [simpl in L; lia|].
      change (removelast ((k, v) :: b :: l)) with ((k, v) :: removelast (b :: l)).
      remember (b :: l) as l0. simpl. now rewrite Z.eqb_refl.
Qed.

Lemma u64_small z : in_u64 z -> u64 z = z.
Proof. intros H. apply Z.mod_small. exact H. Qed.

Lemma u64_add_l x n : u64 (u64 x + n) = u64 (x + n).
Proof. unfold u64. now rewrite Z.add_mod_idemp_l by lia. Qed.

Lemma in_u64_u64 z : in_u64 (u64 z).
Proof. unfold in_u64, u64. apply Z.mod_pos_bound. lia. Qed.

Lemma u64_incr_twice x : u64 (u64 (x + 1) + 1) = u64 (x + 2).
Proof.
  unfold u64. rewrite Z.add_mod_idemp_l by lia. f_equal. lia.
Qed.

Lemma u64_incr_no_wrap x n :
  0 <= x -> 0 <= n -> x + n < 2 ^ 64 -> u64 (x + n) = x + n.
Proof. intros. unfold u64. apply Z.mod_small. lia. Qed.

Lemma within_capacity_account f id m :
  within_capacity m -> within_capacity (account f id m).
Proof.
  intros [Hm Hl]. split.
  - now rewrite (proj2 (account_attrs f id m)).
  - now apply account_length.
Qed.

Lemma within_capacity_switch ctx m :
  within_capacity m -> within_capacity (snd (Stats.count_context_switches ctx m)).
Proof.
  intros H. destruct ctx as [c|]; auto.
  rewrite count_context_switches_account. simpl.
  unfold account_switch. now do 2 apply within_capacity_account.
Qed.

Lemma within_capacity_handle ev m :
  within_capacity m -> within_capacity (snd (StatsV2.handle ev m)).
Proof.
  intros H. destruct ev as [ctx|pid_tgid [c|]]; cbn [StatsV2.handle];
    try exact H.
  - rewrite count_context_switches_v2. now apply within_capacity_switch.
  - rewrite count_page_faults_account. now apply within_capacity_account.
Qed.

Lemma within_capacity_run evs m :
  within_capacity m -> within_capacity (Stats.run evs m).
Proof.
  revert m. induction evs as [|ctx evs IH]; intros m H; auto.
  apply IH. now apply within_capacity_switch.
Qed.

Lemma within_capacity_run_v2 evs m :
  within_capacity m -> within_capacity (StatsV2.run evs m).
Proof.
  revert m. induction evs as [|ev evs IH]; intros m H; auto.
  apply IH. now apply within_capacity_handle.
Qed.

(** Accounting for a resolved id applies the increment to the record it
    resolved to. *)
Lemma load_account_resolved f id t :
  fst (Stats.get_or_init_stats id t) <> None ->
  load id (account f id t) = Some (f (record_or_zero id t)).
Proof.
  intros R. apply get_or_init_stats_resolved in R. destruct R as [t1 G].
  exact (load_account_same _ _ _ _ _ G).
Qed.

(** The id accounted for first keeps its record while a second, different id
    is accounted for. *)
Lemma load_account_kept f g prev next m :
  prev <> next -> 2 <= max_entries m ->
  fst (Stats.get_or_init_stats prev m) <> None ->
  load prev (account g next (account f prev m)) = load prev (account f prev m).
Proof.
  intros Hne Hcap R. pose proof (load_account_resolved f _ _ R) as L1.
  rewrite L1. apply account_keeps_recent; auto.
  - now rewrite (proj2 (account_attrs _ _ _)).
  - rewrite (proj1 (account_attrs _ _ _)). intros T.
    destruct (account_head f _ _ R T) as (v & l & E).
    exists l. rewrite E. unfold load in L1. rewrite E in L1. simpl in L1.
    rewrite Z.eqb_refl in L1. injection L1 as L1. now rewrite L1.
Qed.

(** The LRU table always finds room. *)
Lemma lru_always_resolves id m :
  map_type m = BPF_MAP_TYPE_LRU_HASH ->
  fst (Stats.get_or_init_stats id m) <> None.
Proof.
  intros T. rewrite get_or_init_stats_cases, T.
  destruct (load id m); [discriminate|].
  destruct (Z.of_nat (length (elems m)) <? max_entries m); discriminate.
Qed.

(** An id that was absent and is not the one accounted for stays absent. *)
Lemma load_account_absent f id k m :
  k <> id -> load k m = None -> load k (account f id m) = None.
Proof.
  intros Hk E. destruct (load k (account f id m)) as [s|] eqn:L; auto.
  apply load_account_other in L; auto. congruence.
Qed.

(** An accepted [BPF_ANY] update makes the key read the new value, whether or
    not the key was there before: insert-or-overwrite. *)
Lemma bpf_map_update_elem_accepted key v m :
  fst (bpf_map_update_elem key v BPF_ANY m) = 0 ->
  load key (snd (bpf_map_update_elem key v BPF_ANY m)) = Some v.
Proof.
  unfold bpf_map_update_elem, load.
  destruct (find_elem key (elems m)) as [w|] eqn:E.
  - intros _. destruct (map_type m); simpl.
    + now rewrite find_elem_write_same, E.
    + now rewrite Z.eqb_refl.
  - destruct (Z.of_nat (length (elems m)) <? max_entries m); simpl.
    + now rewrite Z.eqb_refl.
    + destruct (map_type m); simpl; [discriminate|]. now rewrite Z.eqb_refl.
Qed.

(** Tables reached from the initial ones never store an id twice. *)
Lemma distinct_keys_run evs m :
  distinct_keys (elems m) = true ->
  distinct_keys (elems (Stats.run evs m)) = true.
Proof.
  revert m. induction evs as [|[c|] evs IH]; intros m H; auto.
  - apply IH. rewrite count_context_switches_account. cbn [snd].
    unfold account_switch. now do 2 apply account_distinct.
  - now apply IH.
Qed.

Lemma distinct_keys_run_v2 evs m :
  distinct_keys (elems m) = true ->
  distinct_keys (elems (StatsV2.run evs m)) = true.
Proof.
  revert m. induction evs as [|ev evs IH]; intros m H; auto.
  apply IH. destruct ev as [[c|]|pid_tgid [c|]]; cbn [StatsV2.handle];
    try exact H.
  - rewrite count_context_switches_v2, count_context_switches_account.
    cbn [snd]. unfold account_switch. now do 2 apply account_distinct.
  - rewrite count_page_faults_account. cbn [snd]. now apply account_distinct.
Qed.

(** Resolving an id that is already the most recently touched one leaves the
    table exactly as it is. *)
Lemma get_or_init_stats_again id m v :
  distinct_keys (elems m) = true ->
  load id m = Some v ->
  (map_type m = BPF_MAP_TYPE_LRU_HASH -> exists w l, elems m = (id, w) :: l) ->
  Stats.get_or_init_stats id m = (Some id, m).
Proof.
  intros Hd Hv Hhead. rewrite (get_or_init_stats_present _ _ _ Hv). f_equal.
  destruct m as [ty n l0]. simpl in *. destruct ty; auto.
  destruct (Hhead eq_refl) as (w & l & ->).
  unfold load in Hv. simpl in Hv. rewrite Z.eqb_refl in Hv.
  injection Hv as ->. now apply touched_head.
Qed.

(** A full hash table turns away an id it does not hold. *)
Lemma hash_full_rejects id m :
  map_type m = BPF_MAP_TYPE_HASH -> max_entries m = 1024 ->
  length (elems m) = 1024%nat -> load id m = None ->
  Stats.get_or_init_stats id m = (None, m).
Proof.
  intros T Hm Hl E. rewrite get_or_init_stats_cases, E, Hm, Hl, T.
  reflexivity.
Qed.

(** A full LRU table admits an id it does not hold by giving up its last
    element. *)
Lemma lru_full_inserts id m :
  map_type m = BPF_MAP_TYPE_LRU_HASH -> max_entries m = 1024 ->
  length (elems m) = 1024%nat -> load id m = None ->
  Stats.get_or_init_stats id m =
  (Some id, with_elems m ((id, zero) :: removelast (elems m))).
Proof.
  intros T Hm Hl E. rewrite get_or_init_stats_cases, E, Hm, Hl, T.
  reflexivity.
Qed.

(** ** Invariants of the records *)

Section AllRecords.

Variable Q : stats_t -> Prop.
Variable f : stats_t -> stats_t.
Hypothesis Q_zero : Q zero.
Hypothesis Q_f : forall v, Q v -> Q (f v).

Lemma all_records_resolve id m :
  all_records Q m -> all_records Q (snd (Stats.get_or_init_stats id m)).
Proof.
  unfold all_records. intros H k v. rewrite get_or_init_stats_cases.
  destruct (load id m) as [w|] eqn:E; cbn [snd].
  - unfold touched. destruct (map_type m); [apply H|]. simpl.
    intros [I|I].
    + inversion I. subst. apply find_elem_In in E. eauto.
    + apply In_remove_elem in I. eauto.
  - destruct (Z.of_nat (length (elems m)) <? max_entries m); cbn [snd].
    + simpl. intros [I|I]; [inversion I; now subst | eauto].
    + destruct (map_type m); cbn [snd]; [apply H|]. simpl.
      intros [I|I]; [inversion I; now subst |].
      apply In_removelast in I. eauto.
Qed.

Lemma all_records_store p m :
  all_records Q m -> all_records Q (snd (store p f m)).
Proof.
  unfold all_records. simpl. intros H k v I.
  apply In_write_elem in I. destruct I as [I|(w & I & E)]; [eauto|].
  simpl in I, E. subst v. eauto.
Qed.

Lemma all_records_account id m :
  all_records Q m -> all_records Q (account f id m).
Proof.
  intros H. unfold account.
  pose proof (all_records_resolve id m H) as H1.
  destruct (Stats.get_or_init_stats id m) as [[p|] m1]; cbn [snd] in H1; auto.
  now apply all_records_store.
Qed.

End AllRecords.

Lemma all_records_load Q m k s :
  all_records Q m -> load k m = Some s -> Q s.
Proof. intros H L. apply find_elem_In in L. eauto. Qed.

Lemma all_records_run Q evs m :
  Q zero -> (forall v, Q v -> Q (incr_context_switches v)) ->
  all_records Q m -> all_records Q (Stats.run evs m).
Proof.
  intros Hz Hi. revert m. induction evs as [|[c|] evs IH]; intros m H; auto.
  - apply IH. rewrite count_context_switches_account. cbn [snd].
    unfold account_switch. repeat (apply all_records_account; auto).
  - now apply IH.
Qed.

(** ** Core operations *)

Lemma exec_ops_app ops1 ops2 m :
  exec_ops (ops1 ++ ops2) m = exec_ops ops2 (exec_ops ops1 m).
Proof. apply fold_left_app. Qed.

Lemma classify_incr_field code :
  classify code =
  incr_field (if Z.testbit code 0 then MinorFaults else MajorFaults).
Proof. unfold classify. now destruct (Z.testbit code 0). Qed.

Lemma resolve_keeps_records id m k s s' :
  load k m = Some s ->
  load k (snd (Stats.get_or_init_stats id m)) = Some s' ->
  s' = s.
Proof.
  intros L L'. destruct (Z.eq_dec k id) as [->|Hk].
  - rewrite (get_or_init_stats_present _ _ _ L) in L'. cbn [snd] in L'.
    rewrite load_touched in L' by auto. congruence.
  - apply get_or_init_stats_others in L'; auto. congruence.
Qed.

Lemma counter_incr_field f g s :
  counter f (incr_field g s) =
  match f, g with
  | ContextSwitches, ContextSwitches
  | MajorFaults, MajorFaults
  | MinorFaults, MinorFaults => u64 (counter f s + 1)
  | _, _ => counter f s
  end.
Proof. now destruct f, g. Qed.

Lemma u64_incr_cases x :
  in_u64 x -> x <= u64 (x + 1) \/ (x = 2 ^ 64 - 1 /\ u64 (x + 1) = 0).
Proof.
  unfold in_u64, u64. intros H.
  destruct (Z.eq_dec x (2 ^ 64 - 1)) as [->|Hx].
  - right. split; reflexivity.
  - left. rewrite Z.mod_small; lia.
Qed.

Lemma resolve_incr_ops_exec f id m :
  exec_ops (resolve_incr_ops f id m) m = account (incr_field f) id m.
Proof.
  unfold resolve_incr_ops, account.
  destruct (Stats.get_or_init_stats id m) as [[p|] m1] eqn:G; simpl;
    now rewrite G.
Qed.

Lemma switch_ops_exec ctx m :
  exec_ops (switch_ops ctx m) m = snd (Stats.count_context_switches ctx m).
Proof.
  destruct ctx as [c|]; [|reflexivity]. unfold switch_ops.
  rewrite exec_ops_app, count_context_switches_account. cbn [snd].
  now rewrite !resolve_incr_ops_exec.
Qed.

Lemma fault_ops_exec pid_tgid ctx m :
  exec_ops (fault_ops pid_tgid ctx m) m =
  snd (StatsV2.count_page_faults pid_tgid ctx m).
Proof.
  destruct ctx as [c|]; [|reflexivity]. unfold fault_ops.
  now rewrite resolve_incr_ops_exec, count_page_faults_account,
    classify_incr_field.
Qed.

Lemma resolve_incr_ops_length f id m :
  (length (resolve_incr_ops f id m) <= 2)%nat.
Proof.
  unfold resolve_incr_ops.
  destruct (fst (Stats.get_or_init_stats id m)); simpl; lia.
Qed.

Lemma incrs_app f k ops1 ops2 :
  incrs f k (ops1 ++ ops2) = incrs f k ops1 + incrs f k ops2.
Proof.
  induction ops1 as [|[id|g p] ops1 IH]; simpl incrs; simpl app; auto.
  cbn [incrs]. rewrite IH. lia.
Qed.

Lemma incrs_resolve_incr_ops f k g id m :
  0 <= incrs f k (resolve_incr_ops g id m) <= 1.
Proof.
  unfold resolve_incr_ops.
  destruct (fst (Stats.get_or_init_stats id m)); cbn [incrs]; [|lia].
  destruct (field_eqb f g && (s =? k)); lia.
Qed.

(** Along operations that never give the record of [k] up, a counter of [k]
    ends at its old value plus the number of its increments, modulo 2^64. *)
Lemma exec_ops_counter f k ops :
  forall m s s',
    live_throughout k ops m = true ->
    load k m = Some s -> load k (exec_ops ops m) = Some s' ->
    in_u64 (counter f s) ->
    counter f s' = u64 (counter f s + incrs f k ops).
Proof.
  induction ops as [|op ops IH]; intros m s s' Hlive L L' R.
  - simpl in L'. rewrite L in L'. injection L' as <-.
    cbn [incrs]. now rewrite Z.add_0_r, u64_small.
  - unfold live_throughout in Hlive. cbn [states forallb] in Hlive.
    apply andb_true_iff in Hlive. destruct Hlive as [_ Hlive].
    fold (live_throughout k ops (exec_op op m)) in Hlive.
    assert (Hnext : exists s1, load k (exec_op op m) = Some s1).
    { unfold live_throughout in Hlive. destruct ops; cbn [states forallb] in Hlive;
        destruct (load k (exec_op op m)) as [s1|]; try discriminate; eauto. }
    destruct Hnext as [s1 L1].
    change (exec_ops (op :: ops) m) with (exec_ops ops (exec_op op m)) in L'.
    destruct op as [id|g p]; cbn [exec_op incrs] in *.
    + rewrite (resolve_keeps_records _ _ _ _ _ L L1) in L1.
      exact (IH _ _ _ Hlive L1 L' R).
    + destruct (Z.eq_dec k p) as [->|Hk].
      * rewrite load_store_same, L in L1. injection L1 as <-.
        rewrite Z.eqb_refl, andb_true_r.
        rewrite (IH _ _ _ Hlive (eq_trans (load_store_same _ _ _)
                   (f_equal (option_map (incr_field g)) L)) L').
        -- rewrite counter_incr_field.
           destruct f, g; cbn [field_eqb]; rewrite ?u64_add_l;
             f_equal; lia.
        -- rewrite counter_incr_field.
           destruct f, g; auto; apply in_u64_u64.
      * assert (E : (p =? k) = false) by (apply Z.eqb_neq; congruence).
        rewrite E, andb_false_r.
        rewrite load_store_other, L in L1 by auto. injection L1 as <-.
        assert (L2 : load k (snd (store p (incr_field g) m)) = Some s)
          by now rewrite load_store_other.
        rewrite (IH _ _ _ Hlive L2 L' R). f_equal.
Qed.

(** One more scheduler event between ids 1 and 2 once both are in the table. *)
Lemma switched_step x :
  snd (Stats.count_context_switches (switch 1 2) (switched x)) =
  switched (u64 (x + 1)).
Proof. reflexivity. Qed.

Lemma switched_run n x :
  in_u64 x ->
  Stats.run (repeat (switch 1 2) n) (switched x) =
  switched (u64 (x + Z.of_nat n)).
Proof.
  revert x. induction n as [|n IH]; intros x Hx.
  - unfold u64. simpl. rewrite Z.add_0_r, Z.mod_small; auto.
  - change (Stats.run (repeat (switch 1 2) (S n)) (switched x))
      with (Stats.run (repeat (switch 1 2) n)
              (snd (Stats.count_context_switches (switch 1 2) (switched x)))).
    rewrite switched_step, IH.
    + f_equal. unfold u64. rewrite Z.add_mod_idemp_l by lia. f_equal. lia.
    + unfold in_u64, u64. apply Z.mod_pos_bound. lia.
Qed.

Lemma switched_first_run n :
  Stats.run (switch 1 2 :: repeat (switch 1 2) n) Stats.stats_map =
  switched (u64 (1 + Z.of_nat n)).
Proof.
  change (Stats.run (switch 1 2 :: repeat (switch 1 2) n) Stats.stats_map)
    with (Stats.run (repeat (switch 1 2) n) (switched 1)).
  apply switched_run. unfold in_u64. lia.
Qed.

(** The hooks alone bring a counter to the largest 64-bit value: it takes
    2^64 - 1 scheduler events between ids 1 and 2 from the initial table. *)
Lemma switched_last_value_reachable :
  Stats.run (switch 1 2 :: repeat (switch 1 2) (Z.to_nat (2 ^ 64 - 2)))
    Stats.stats_map = switched (2 ^ 64 - 1).
Proof.
  rewrite switched_first_run.
  rewrite Z2Nat.id by lia. reflexivity.
Qed.

(** ** Counters stay within 64 bits *)

Lemma stats_in_range_incr f s :
  stats_in_range s -> stats_in_range (incr_field f s).
Proof.
  intros (H1 & H2 & H3).
  destruct f; (split; [|split]); simpl; auto using in_u64_u64.
Qed.

Lemma stats_in_range_zero : stats_in_range zero.
Proof. unfold stats_in_range, in_u64. simpl. lia. Qed.

Lemma stats_in_range_run evs :
  all_records stats_in_range (Stats.run evs Stats.stats_map).
Proof.
  apply all_records_run.
  - exact stats_in_range_zero.
  - exact (stats_in_range_incr ContextSwitches).
  - intros k v [].
Qed.

Lemma stats_in_range_run_v2 evs :
  all_records stats_in_range (StatsV2.run evs StatsV2.stats_map).
Proof.
  assert (H : all_records stats_in_range StatsV2.stats_map)
    by (intros k v []).
  revert H. generalize StatsV2.stats_map.
  induction evs as [|ev evs IH]; intros m H; auto.
  apply IH. destruct ev as [[c|]|pid_tgid [c|]]; cbn [StatsV2.handle];
    try exact H.
  - rewrite count_context_switches_v2, count_context_switches_account.
    cbn [snd]. unfold account_switch.
    pose proof (stats_in_range_incr ContextSwitches) as Hi.
    pose proof stats_in_range_zero as Hz.
    repeat (apply all_records_account; auto).
  - rewrite count_page_faults_account, classify_incr_field. cbn [snd].
    apply all_records_account;
      auto using stats_in_range_zero, stats_in_range_incr.
Qed.

(** ** The claims *)

(** C1: [get_or_init_stats], in stats.c and in stats-v2.c alike, is the
    resolve-or-create algorithm of the design: look the id up and return the
    record if it is found; otherwise insert a zero record with
    insert-or-overwrite semantics, look the id up a second time, and return
    absent, not an error, if it is still missing. *)
Theorem get_or_init_stats_algorithm (id : Z) (t : bpf_map) :
  Stats.get_or_init_stats id t = resolve_or_create id t /\
  StatsV2.get_or_init_stats id t = resolve_or_create id t.
Proof.
  rewrite get_or_init_stats_v2. split;
    unfold Stats.get_or_init_stats, resolve_or_create, bind, ret;
    destruct (bpf_map_lookup_elem id t) as [[r|] t1]; auto;
    destruct (bpf_map_update_elem id zero BPF_ANY t1) as [rc t2]; simpl;
    now destruct (bpf_map_lookup_elem id t2) as [[r|] t3].
Qed.

(** C2: for a non-null scheduler event the hook, in both files, accounts for
    the outgoing id and then for the incoming id, each on its own: every id
    whose record is resolved has [context_switches] incremented by one (as an
    unsigned 64-bit counter) over the record it resolved to, the outgoing id
    keeps its count while the incoming one is handled, and when the two ids are
    equal that id's counter goes up by two. *)
Theorem context_switch_counts_both_ids
  (c : trace_event_raw_sched_switch) (m : bpf_map) :
  let prev := u32 (prev_pid c) in
  let next := u32 (next_pid c) in
  let m1 := account_switch prev m in
  let m2 := account_switch next m1 in
  Stats.count_context_switches (Some c) m = (0, m2) /\
  StatsV2.count_context_switches (Some c) m = (0, m2) /\
  (fst (Stats.get_or_init_stats prev m) <> None ->
   load prev m1 = Some (incr_context_switches (record_or_zero prev m))) /\
  (fst (Stats.get_or_init_stats next m1) <> None ->
   load next m2 = Some (incr_context_switches (record_or_zero next m1))) /\
  (prev <> next -> 2 <= max_entries m ->
   fst (Stats.get_or_init_stats prev m) <> None ->
   load prev m2 = load prev m1) /\
  (prev = next -> fst (Stats.get_or_init_stats prev m) <> None ->
   let old := record_or_zero prev m in
   load prev m2 =
     Some {| context_switches := u64 (context_switches old + 2);
             major_faults := major_faults old;
             minor_faults := minor_faults old |} /\
   (0 <= context_switches old -> context_switches old + 2 < 2 ^ 64 ->
    u64 (context_switches old + 2) = context_switches old + 2)).
Proof.
  intros prev next m1 m2.
  split; [apply count_context_switches_account|].
  split; [rewrite count_context_switches_v2; apply count_context_switches_account|].
  split; [apply load_account_resolved|].
  split; [apply load_account_resolved|]. split.
  - intros Hne Hcap R. now apply load_account_kept.
  - intros Heq R old.
    pose proof (load_account_resolved incr_context_switches _ _ R) as L1.
    fold (account_switch prev m) in L1. fold m1 in L1. split.
    + subst m2. rewrite <- Heq.
      assert (R1 : fst (Stats.get_or_init_stats prev m1) <> None).
      { rewrite (get_or_init_stats_present _ _ _ L1). discriminate. }
      unfold account_switch at 1. rewrite (load_account_resolved _ _ _ R1).
      unfold record_or_zero at 1. rewrite L1.
      fold old. unfold incr_context_switches. simpl.
      now rewrite u64_incr_twice.
    + intros. apply u64_incr_no_wrap; lia.
Qed.

Lemma context_switch_counts_both_ids_witness :
  load 10 (snd (Stats.count_context_switches (switch 10 10) Stats.stats_map)) =
    Some {| context_switches := 2; major_faults := 0; minor_faults := 0 |} /\
  load 10 (snd (StatsV2.count_context_switches (switch 10 11)
                  (table_of BPF_MAP_TYPE_LRU_HASH 1024))) =
    Some {| context_switches := 1; major_faults := 0; minor_faults := 0 |} /\
  load 11 (snd (StatsV2.count_context_switches (switch 10 11)
                  (table_of BPF_MAP_TYPE_LRU_HASH 1024))) =
    Some {| context_switches := 1; major_faults := 0; minor_faults := 0 |}.
Proof.
  split.
  - destruct (context_switch_counts_both_ids
                {| prev_pid := 10; next_pid := 10 |} Stats.stats_map)
      as (E & _ & _ & _ & _ & Hself).
    unfold switch. rewrite E.
    destruct Hself as [L _]; [reflexivity | vm_compute; discriminate |].
    exact L.
  - destruct (context_switch_counts_both_ids
                {| prev_pid := 10; next_pid := 11 |}
                (table_of BPF_MAP_TYPE_LRU_HASH 1024))
      as (_ & E & Hprev & Hnext & Hkeep & _).
    unfold switch. rewrite E. cbn [snd]. split.
    + refine (eq_trans (Hkeep _ _ _) (Hprev _)); vm_compute; discriminate.
    + refine (Hnext _). vm_compute. discriminate.
Defined.

(** C3: a non-null page-fault event whose record is resolved changes exactly
    one fault counter of the current process id: with bit 0 of the error code
    set, [minor_faults] is incremented by one (as an unsigned 64-bit counter)
    and [major_faults] keeps its value; with bit 0 clear it is the other way
    round.  [context_switches] keeps its value in both cases. *)
Theorem page_fault_counts_one_kind
  (pid_tgid : Z) (c : trace_event_raw_page_fault_user) (m : bpf_map) :
  let pid := current_pid pid_tgid in
  let old := record_or_zero pid m in
  fst (StatsV2.get_or_init_stats pid m) <> None ->
  exists m' new,
    StatsV2.count_page_faults pid_tgid (Some c) m = (0, m') /\
    load pid m' = Some new /\
    context_switches new = context_switches old /\
    (Z.testbit (error_code c) 0 = true ->
     minor_faults new = u64 (minor_faults old + 1) /\
     major_faults new = major_faults old) /\
    (Z.testbit (error_code c) 0 = false ->
     major_faults new = u64 (major_faults old + 1) /\
     minor_faults new = minor_faults old) /\
    (in_u64 (minor_faults old + 1) ->
     u64 (minor_faults old + 1) = minor_faults old + 1) /\
    (in_u64 (major_faults old + 1) ->
     u64 (major_faults old + 1) = major_faults old + 1).
Proof.
  intros pid old R. rewrite get_or_init_stats_v2 in R.
  apply get_or_init_stats_resolved in R. destruct R as [m1 G].
  exists (account (classify (error_code c)) pid m),
         (classify (error_code c) old).
  split; [apply count_page_faults_account|].
  split; [exact (load_account_same _ _ _ _ _ G)|].
  unfold classify.
  split; [now destruct (Z.testbit (error_code c) 0)|].
  split; [intros ->; now split|].
  split; [intros ->; now split|].
  split; intros [H1 H2]; apply Z.mod_small; exact (conj H1 H2).
Qed.

Lemma page_fault_counts_one_kind_witness :
  load 7 (snd (StatsV2.count_page_faults (Z.shiftl 7 32) (fault 1)
                 StatsV2.stats_map)) =
    Some {| context_switches := 0; major_faults := 0; minor_faults := 1 |} /\
  load 7 (snd (StatsV2.count_page_faults (Z.shiftl 7 32) (fault 0)
                 (snd (StatsV2.count_page_faults (Z.shiftl 7 32) (fault 1)
                         StatsV2.stats_map)))) =
    Some {| context_switches := 0; major_faults := 1; minor_faults := 1 |}.
Proof.
  split.
  - destruct (page_fault_counts_one_kind (Z.shiftl 7 32)
                (mk_page_fault_user 0 0 0 0 0 0 1) StatsV2.stats_map)
      as (m' & [cs maj mi] & E & L & Hcs & Hset & _);
      [vm_compute; discriminate|].
    destruct (Hset eq_refl) as [Hmi Hmaj].
    change (fault 1) with (Some (mk_page_fault_user 0 0 0 0 0 0 1)).
    rewrite E. cbn [snd]. simpl in Hcs, Hmi, Hmaj. subst cs maj mi. exact L.
  - destruct (page_fault_counts_one_kind (Z.shiftl 7 32)
                (mk_page_fault_user 0 0 0 0 0 0 0)
                (snd (StatsV2.count_page_faults (Z.shiftl 7 32) (fault 1)
                        StatsV2.stats_map)))
      as (m' & [cs maj mi] & E & L & Hcs & _ & Hclear & _);
      [vm_compute; discriminate|].
    destruct (Hclear eq_refl) as [Hmaj Hmi].
    change (fault 0) with (Some (mk_page_fault_user 0 0 0 0 0 0 0)).
    rewrite E. cbn [snd]. simpl in Hcs, Hmi, Hmaj. subst cs maj mi. exact L.
Defined.

(** C4: a hook invoked with a null event payload leaves the table as it is and
    returns 0, the handled signal; this holds for the scheduler hook of both
    files and for the page-fault hook. *)
Theorem null_payload_is_noop (pid_tgid : Z) (t : bpf_map) :
  Stats.count_context_switches None t = (0, t) /\
  StatsV2.count_context_switches None t = (0, t) /\
  StatsV2.count_page_faults pid_tgid None t = (0, t).
Proof. repeat split. Qed.

(** C5: in the hash table of stats.c, once 1024 distinct ids are present,
    resolve-or-create of a further id returns absent and leaves the table as it
    is; a scheduler event between that id and itself changes nothing, and a
    scheduler event between that id and a present id [q] does to the table
    exactly what incrementing [q]'s [context_switches] does, so the new id
    stays absent and every other record reads as before. *)
Theorem hash_full_drops_new_id (m : bpf_map) (id : Z) :
  map_type m = BPF_MAP_TYPE_HASH -> max_entries m = 1024 ->
  distinct_keys (elems m) = true -> length (elems m) = 1024%nat ->
  load id m = None ->
  Stats.get_or_init_stats id m = (None, m) /\
  (forall c, u32 (prev_pid c) = id -> u32 (next_pid c) = id ->
     Stats.count_context_switches (Some c) m = (0, m)) /\
  (forall c q s,
     load q m = Some s ->
     (u32 (prev_pid c) = id /\ u32 (next_pid c) = q) \/
     (u32 (prev_pid c) = q /\ u32 (next_pid c) = id) ->
     let m' := snd (Stats.count_context_switches (Some c) m) in
     m' = snd (store q incr_context_switches m) /\
     load id m' = None /\
     load q m' = Some (incr_context_switches s) /\
     (forall k, k <> q -> load k m' = load k m)).
Proof.
  intros T Hm Hd Hl E.
  pose proof (hash_full_rejects id m T Hm Hl E) as G.
  assert (A : account_switch id m = m).
  { unfold account_switch, account. now rewrite G. }
  split; [exact G|]. split.
  - intros c Hp Hn. rewrite count_context_switches_account, Hp, Hn.
    now rewrite A, A.
  - intros c q s Hq Hc m'.
    assert (Hne : id <> q) by (intros ->; congruence).
    assert (Aq : account_switch q m = snd (store q incr_context_switches m)).
    { unfold account_switch, account.
      rewrite (get_or_init_stats_present _ _ _ Hq). unfold touched.
      now rewrite T. }
    assert (A' : account_switch id (snd (store q incr_context_switches m)) =
                 snd (store q incr_context_switches m)).
    { unfold account_switch, account. rewrite hash_full_rejects; auto.
      - simpl. now rewrite length_write.
      - now rewrite load_store_other. }
    assert (Em : m' = snd (store q incr_context_switches m)).
    { unfold m'. rewrite count_context_switches_account. cbn [snd].
      destruct Hc as [[-> ->]|[-> ->]].
      - now rewrite A.
      - now rewrite Aq. }
    rewrite Em. split; [reflexivity|]. split; [|split].
    + now rewrite load_store_other.
    + now rewrite load_store_same, Hq.
    + intros k Hk. now apply load_store_other.
Qed.

Lemma hash_full_drops_new_id_witness :
  Stats.get_or_init_stats 2000 (table_of BPF_MAP_TYPE_HASH 1024) =
    (None, table_of BPF_MAP_TYPE_HASH 1024) /\
  Stats.count_context_switches (switch 2000 2000)
    (table_of BPF_MAP_TYPE_HASH 1024) = (0, table_of BPF_MAP_TYPE_HASH 1024) /\
  load 2000 (snd (Stats.count_context_switches (switch 2000 3)
                    (table_of BPF_MAP_TYPE_HASH 1024))) = None /\
  load 3 (snd (Stats.count_context_switches (switch 2000 3)
                 (table_of BPF_MAP_TYPE_HASH 1024))) =
    Some {| context_switches := 1; major_faults := 0; minor_faults := 0 |}.
Proof.
  destruct (hash_full_drops_new_id (table_of BPF_MAP_TYPE_HASH 1024) 2000)
    as (G & Hself & Hmixed);
    [reflexivity | reflexivity | vm_compute; reflexivity | reflexivity
    | vm_compute; reflexivity |].
  split; [exact G|]. split; [apply Hself; reflexivity|].
  destruct (Hmixed {| prev_pid := 2000; next_pid := 3 |} 3 zero)
    as (_ & Hnew & Hq & _); [vm_compute; reflexivity | left; split; reflexivity |].
  split; [exact Hnew | exact Hq].
Defined.

(** C6: in the LRU table of stats-v2.c, once 1024 distinct ids are present,
    resolve-or-create of a further id succeeds with a zero record; the table
    still holds 1024 ids, the least recently touched one can no longer be read,
    and every other id present before reads as before.  The event that brought
    the new id is counted: after a page fault of that id its record shows the
    fault, and after a scheduler event naming it its record shows one switch
    for each side that names it. *)
Theorem lru_full_evicts_least_recent (m : bpf_map) (id : Z) :
  map_type m = BPF_MAP_TYPE_LRU_HASH -> max_entries m = 1024 ->
  distinct_keys (elems m) = true -> length (elems m) = 1024%nat ->
  load id m = None ->
  exists victim m',
    lru_victim m = Some victim /\
    StatsV2.get_or_init_stats id m = (Some id, m') /\
    load id m' = Some zero /\
    length (elems m') = 1024%nat /\
    load victim m <> None /\
    load victim m' = None /\
    (forall k, k <> victim -> k <> id -> load k m' = load k m) /\
    (forall pid_tgid c, current_pid pid_tgid = id ->
       load id (snd (StatsV2.count_page_faults pid_tgid (Some c) m)) =
       Some (classify (error_code c) zero)) /\
    (forall c, u32 (prev_pid c) = id \/ u32 (next_pid c) = id ->
       exists s,
         load id (snd (StatsV2.count_context_switches (Some c) m)) = Some s /\
         context_switches s =
           (if u32 (prev_pid c) =? id then 1 else 0) +
           (if u32 (next_pid c) =? id then 1 else 0)).
Proof.
  intros T Hm Hd Hl E.
  assert (Hne : elems m <> []) by (intros H; rewrite H in Hl; discriminate).
  destruct (removelast_victim _ Hne Hd) as (victim & v & Hrev & Hv & Hgone & Hkeep).
  assert (Z0 : record_or_zero id m = zero) by (unfold record_or_zero; now rewrite E).
  exists victim, (with_elems m ((id, zero) :: removelast (elems m))).
  split; [unfold lru_victim; now rewrite Hrev|].
  split; [rewrite get_or_init_stats_v2; now apply lru_full_inserts|].
  split; [unfold load; simpl; now rewrite Z.eqb_refl|].
  split.
  { simpl. destruct (elems m) as [|a l]; [congruence|].
    rewrite length_removelast_cons. simpl in Hl. lia. }
  split; [unfold load; congruence|].
  assert (Hvi : victim <> id) by (intros ->; unfold load in E; congruence).
  split.
  { unfold load. simpl. destruct (id =? victim) eqn:E'; auto.
    apply Z.eqb_eq in E'. congruence. }
  split.
  { intros k Hk Hki. unfold load. simpl.
    destruct (id =? k) eqn:E'; [apply Z.eqb_eq in E'; congruence|].
    now apply Hkeep. }
  split.
  { intros pid_tgid c Hp. rewrite count_page_faults_account. cbn [snd].
    rewrite Hp, load_account_resolved, Z0; auto.
    now apply lru_always_resolves. }
  intros c Hc. rewrite count_context_switches_v2, count_context_switches_account.
  cbn [snd]. unfold account_switch.
  set (prev := u32 (prev_pid c)) in *. set (next := u32 (next_pid c)) in *.
  assert (T1 : map_type (account incr_context_switches prev m) =
               BPF_MAP_TYPE_LRU_HASH)
    by now rewrite (proj1 (account_attrs _ _ _)).
  destruct (Z.eq_dec prev id) as [Hp|Hp], (Z.eq_dec next id) as [Hn|Hn].
  - rewrite Hp, Hn, !Z.eqb_refl. eexists. split.
    + rewrite load_account_resolved.
      * unfold record_or_zero at 1.
        rewrite load_account_resolved, Z0 by now apply lru_always_resolves.
        reflexivity.
      * apply lru_always_resolves. now rewrite (proj1 (account_attrs _ _ _)).
    + reflexivity.
  - rewrite Hp, Z.eqb_refl. apply Z.eqb_neq in Hn as Hn'. rewrite Hn'.
    eexists. split.
    + rewrite load_account_kept; auto; [|lia| now apply lru_always_resolves].
      rewrite load_account_resolved, Z0 by now apply lru_always_resolves.
      reflexivity.
    + reflexivity.
  - rewrite Hn, Z.eqb_refl. apply Z.eqb_neq in Hp as Hp'. rewrite Hp'.
    eexists. split.
    + rewrite load_account_resolved by now apply lru_always_resolves.
      unfold record_or_zero. rewrite load_account_absent; auto.
    + reflexivity.
  - tauto.
Qed.

Lemma lru_full_evicts_least_recent_witness :
  lru_victim (table_of BPF_MAP_TYPE_LRU_HASH 1024) = Some 1024 /\
  fst (StatsV2.get_or_init_stats 2000 (table_of BPF_MAP_TYPE_LRU_HASH 1024)) =
    Some 2000 /\
  load 1024
    (snd (StatsV2.get_or_init_stats 2000
            (table_of BPF_MAP_TYPE_LRU_HASH 1024))) = None /\
  load 1023
    (snd (StatsV2.get_or_init_stats 2000
            (table_of BPF_MAP_TYPE_LRU_HASH 1024))) = Some zero /\
  load 2000
    (snd (StatsV2.count_page_faults (Z.shiftl 2000 32) (fault 1)
            (table_of BPF_MAP_TYPE_LRU_HASH 1024))) =
    Some {| context_switches := 0; major_faults := 0; minor_faults := 1 |}.
Proof.
  destruct (lru_full_evicts_least_recent
              (table_of BPF_MAP_TYPE_LRU_HASH 1024) 2000)
    as (victim & m' & Hvic & G & _ & _ & _ & Hgone & Hkeep & Hpf & _);
    [reflexivity | reflexivity | vm_compute; reflexivity | reflexivity
    | vm_compute; reflexivity |].
  assert (Hv : victim = 1024).
  { vm_compute in Hvic. now injection Hvic as <-. }
  subst victim. rewrite G. cbn [fst snd].
  split; [exact Hvic|]. split; [reflexivity|]. split; [exact Hgone|].
  split; [rewrite Hkeep by discriminate; vm_compute; reflexivity|].
  exact (Hpf (Z.shiftl 2000 32) (mk_page_fault_user 0 0 0 0 0 0 1) eq_refl).
Defined.

(** C7: calling resolve-or-create for the same id twice in a row, with nothing
    in between, returns the same result both times and the second call leaves
    the table untouched, so no second entry is created; and an update made
    through the pointer of the first call is what the second call, returning
    that same pointer, reads. *)
Theorem get_or_init_stats_twice
  (id : Z) (m : bpf_map) (r : option stats_ptr) (m1 : bpf_map) :
  distinct_keys (elems m) = true ->
  Stats.get_or_init_stats id m = (r, m1) ->
  Stats.get_or_init_stats id m1 = (r, m1) /\
  StatsV2.get_or_init_stats id m1 = (r, m1) /\
  distinct_keys (elems m1) = true /\
  (forall p f, r = Some p ->
     exists s,
       load p m1 = Some s /\
       Stats.get_or_init_stats id (snd (store p f m1)) =
         (Some p, snd (store p f m1)) /\
       StatsV2.get_or_init_stats id (snd (store p f m1)) =
         (Some p, snd (store p f m1)) /\
       load p (snd (store p f m1)) = Some (f s)).
Proof.
  intros Hd G. rewrite !get_or_init_stats_v2.
  pose proof (get_or_init_stats_distinct id m Hd) as Hd1.
  pose proof (get_or_init_stats_attrs id m) as [Hty _].
  rewrite G in Hd1, Hty. cbn [snd] in Hd1, Hty.
  assert (Hsame : Stats.get_or_init_stats id m1 = (r, m1)).
  { destruct r as [p|].
    - pose proof (get_or_init_stats_some _ _ _ _ G) as [-> L].
      eapply get_or_init_stats_again; eauto.
      intros T. rewrite Hty in T. eapply get_or_init_stats_head; eauto.
    - assert (m1 = m) as ->; [|exact G].
      rewrite get_or_init_stats_cases in G.
      destruct (load id m); [discriminate|].
      destruct (Z.of_nat (length (elems m)) <? max_entries m); [discriminate|].
      destruct (map_type m); [|discriminate]. now inversion G. }
  repeat split; auto.
  intros p f ->.
  pose proof (get_or_init_stats_some _ _ _ _ G) as [-> L].
  eexists. split; [exact L|].
  assert (L' : load id (snd (store id f m1)) = option_map f (load id m1))
    by apply load_store_same.
  rewrite L in L'. simpl option_map in L'.
  assert (Stats.get_or_init_stats id (snd (store id f m1)) =
          (Some id, snd (store id f m1))).
  { eapply get_or_init_stats_again; eauto.
    - simpl. now rewrite distinct_keys_write.
    - simpl. intros T. rewrite Hty in T.
      destruct (get_or_init_stats_head _ _ _ _ G T) as (w & l & E).
      rewrite E. simpl. rewrite Z.eqb_refl. eauto. }
  repeat split; auto.
Qed.

Lemma get_or_init_stats_twice_witness :
  StatsV2.get_or_init_stats 5
    (snd (StatsV2.get_or_init_stats 5 (table_of BPF_MAP_TYPE_LRU_HASH 8))) =
    (Some 5,
     snd (StatsV2.get_or_init_stats 5 (table_of BPF_MAP_TYPE_LRU_HASH 8))) /\
  load 5
    (snd (store 5 incr_context_switches
            (snd (StatsV2.get_or_init_stats 5
                    (table_of BPF_MAP_TYPE_LRU_HASH 8))))) =
    Some {| context_switches := 1; major_faults := 0; minor_faults := 0 |}.
Proof.
  destruct (get_or_init_stats_twice 5 (table_of BPF_MAP_TYPE_LRU_HASH 8)
              (Some 5)
              (snd (StatsV2.get_or_init_stats 5
                      (table_of BPF_MAP_TYPE_LRU_HASH 8)))
              eq_refl eq_refl) as (_ & H2 & _ & H4).
  split; [exact H2|].
  destruct (H4 5 incr_context_switches eq_refl) as (s & L & _ & _ & L').
  rewrite L'. vm_compute in L. injection L as <-. reflexivity.
Defined.

(** C8 (monotone counters), up to wrap-around: each hook run is the list of
    core operations given by [switch_ops] or [fault_ops], at most four and at
    most two of them: a resolve-or-create, then one increment of the hook's
    own counter.  Across one core operation a record that can be read before
    and after it has each counter either not decreased or wrapped from the
    largest 64-bit value to 0.  Across a whole hook run a record that is never
    given up on the way ends with each counter at its old value plus the
    number of its increments, at most two for the scheduler hook and one for
    the page-fault hook, modulo 2^64; so the counter has not decreased unless
    that sum passes the largest 64-bit value. *)
Theorem counters_monotone_up_to_wrap :
  (forall ctx m,
     snd (Stats.count_context_switches ctx m) =
       exec_ops (switch_ops ctx m) m /\
     snd (StatsV2.count_context_switches ctx m) =
       exec_ops (switch_ops ctx m) m /\
     (length (switch_ops ctx m) <= 4)%nat) /\
  (forall pid_tgid ctx m,
     snd (StatsV2.count_page_faults pid_tgid ctx m) =
       exec_ops (fault_ops pid_tgid ctx m) m /\
     (length (fault_ops pid_tgid ctx m) <= 2)%nat) /\
  (forall op m k s s' f,
     load k m = Some s -> load k (exec_op op m) = Some s' ->
     in_u64 (counter f s) ->
     counter f s <= counter f s' \/
     (counter f s = 2 ^ 64 - 1 /\ counter f s' = 0)) /\
  (forall ctx m k s s' f,
     live_throughout k (switch_ops ctx m) m = true ->
     load k m = Some s ->
     load k (snd (Stats.count_context_switches ctx m)) = Some s' ->
     in_u64 (counter f s) ->
     counter f s' = u64 (counter f s + incrs f k (switch_ops ctx m)) /\
     0 <= incrs f k (switch_ops ctx m) <= 2 /\
     (counter f s + incrs f k (switch_ops ctx m) < 2 ^ 64 ->
      counter f s <= counter f s')) /\
  (forall pid_tgid ctx m k s s' f,
     live_throughout k (fault_ops pid_tgid ctx m) m = true ->
     load k m = Some s ->
     load k (snd (StatsV2.count_page_faults pid_tgid ctx m)) = Some s' ->
     in_u64 (counter f s) ->
     counter f s' = u64 (counter f s + incrs f k (fault_ops pid_tgid ctx m)) /\
     0 <= incrs f k (fault_ops pid_tgid ctx m) <= 1 /\
     (counter f s + incrs f k (fault_ops pid_tgid ctx m) < 2 ^ 64 ->
      counter f s <= counter f s')).
Proof.
  assert (Hsw : forall f k ctx m, 0 <= incrs f k (switch_ops ctx m) <= 2).
  { intros f k [c|] m; cbn [switch_ops incrs]; [|lia].
    rewrite incrs_app.
    pose proof (incrs_resolve_incr_ops f k ContextSwitches
                  (u32 (prev_pid c)) m).
    pose proof (incrs_resolve_incr_ops f k ContextSwitches
                  (u32 (next_pid c))
                  (exec_ops (resolve_incr_ops ContextSwitches
                               (u32 (prev_pid c)) m) m)).
    lia. }
  assert (Hpf : forall f k pid_tgid ctx m,
            0 <= incrs f k (fault_ops pid_tgid ctx m) <= 1).
  { intros f k pid_tgid [c|] m; cbn [fault_ops incrs]; [|lia].
    apply incrs_resolve_incr_ops. }
  assert (Hle : forall x n, in_u64 x -> 0 <= n -> x + n < 2 ^ 64 ->
            x <= u64 (x + n)).
  { intros x n [Hx _] Hn Hlt. rewrite u64_incr_no_wrap; lia. }
  split; [|split; [|split; [|split]]].
  - intros ctx m. rewrite count_context_switches_v2, switch_ops_exec.
    repeat split. destruct ctx as [c|]; cbn [switch_ops]; [|simpl; lia].
    rewrite length_app.
    pose proof (resolve_incr_ops_length ContextSwitches (u32 (prev_pid c)) m).
    pose proof (resolve_incr_ops_length ContextSwitches (u32 (next_pid c))
                  (exec_ops (resolve_incr_ops ContextSwitches
                               (u32 (prev_pid c)) m) m)).
    lia.
  - intros pid_tgid ctx m. rewrite fault_ops_exec. split; [reflexivity|].
    destruct ctx as [c|]; cbn [fault_ops]; [|simpl; lia].
    apply resolve_incr_ops_length.
  - intros [id|g p] m k s s' f L L' R; cbn [exec_op] in L'.
    + rewrite (resolve_keeps_records _ _ _ _ _ L L'). left. lia.
    + destruct (Z.eq_dec k p) as [->|Hk].
      * rewrite load_store_same, L in L'. injection L' as <-.
        rewrite counter_incr_field.
        destruct f, g; try (left; lia); now apply u64_incr_cases.
      * rewrite load_store_other, L in L' by auto. injection L' as <-.
        left. lia.
  - intros ctx m k s s' f Hlive L L' R. rewrite <- switch_ops_exec in L'.
    pose proof (exec_ops_counter f k _ _ _ _ Hlive L L' R) as E.
    pose proof (Hsw f k ctx m) as B.
    split; [exact E|]. split; [exact B|].
    intros Hlt. rewrite E. apply Hle; auto. lia.
  - intros pid_tgid ctx m k s s' f Hlive L L' R.
    rewrite <- fault_ops_exec in L'.
    pose proof (exec_ops_counter f k _ _ _ _ Hlive L L' R) as E.
    pose proof (Hpf f k pid_tgid ctx m) as B.
    split; [exact E|]. split; [exact B|].
    intros Hlt. rewrite E. apply Hle; auto. lia.
Qed.

Lemma counters_monotone_up_to_wrap_witness :
  context_switches
    {| context_switches := 5; major_faults := 0; minor_faults := 0 |} <=
  context_switches
    {| context_switches := 6; major_faults := 0; minor_faults := 0 |} /\
  (context_switches
     {| context_switches := 5; major_faults := 0; minor_faults := 0 |} <=
   context_switches
     {| context_switches := 6; major_faults := 0; minor_faults := 0 |} \/
   (context_switches
      {| context_switches := 5; major_faults := 0; minor_faults := 0 |} =
    2 ^ 64 - 1 /\
    context_switches
      {| context_switches := 6; major_faults := 0; minor_faults := 0 |} = 0)).
Proof.
  destruct counters_monotone_up_to_wrap as (_ & _ & Hop & Hhook & _).
  split.
  - destruct (Hhook (switch 1 2) (switched 5) 1
                {| context_switches := 5; major_faults := 0;
                   minor_faults := 0 |}
                {| context_switches := 6; major_faults := 0;
                   minor_faults := 0 |}
                ContextSwitches) as (_ & _ & H).
    + reflexivity.
    + reflexivity.
    + reflexivity.
    + unfold in_u64. simpl. lia.
    + apply H. vm_compute. reflexivity.
  - apply (Hop (Incr ContextSwitches 1) (switched 5) 1 _ _ ContextSwitches).
    + reflexivity.
    + reflexivity.
    + unfold in_u64. simpl. lia.
Defined.

(** Monotonicity without the wrap-around proviso does not hold: in the hash
    table, which never gives a record up, a scheduler event takes the
    [context_switches] of id 1 from the largest 64-bit value down to 0; so it
    is not true that no core operation decreases a counter of a record that
    stays in the table. *)
Lemma counters_monotone_fails_at_wrap :
  load 1 (switched (2 ^ 64 - 1)) =
    Some {| context_switches := 2 ^ 64 - 1; major_faults := 0;
            minor_faults := 0 |} /\
  load 1 (snd (Stats.count_context_switches (switch 1 2)
                 (switched (2 ^ 64 - 1)))) =
    Some {| context_switches := 0; major_faults := 0; minor_faults := 0 |} /\
  ~ (forall op m k s s' f,
       load k m = Some s -> load k (exec_op op m) = Some s' ->
       in_u64 (counter f s) -> counter f s <= counter f s').
Proof.
  split; [reflexivity|]. split; [reflexivity|].
  intros H.
  specialize (H (Incr ContextSwitches 1) (switched (2 ^ 64 - 1)) 1 _ _
                ContextSwitches eq_refl eq_refl).
  change (in_u64 (2 ^ 64 - 1) -> 2 ^ 64 - 1 <= 0) in H.
  unfold in_u64 in H. lia.
Qed.

(** C9: both files declare the table with 1024 entries; no hook and no
    resolve-or-create changes that bound, and no run of either program from
    its initial table ever holds more than 1024 ids. *)
Theorem capacity_fixed_at_1024 :
  max_entries Stats.stats_map = 1024 /\
  max_entries StatsV2.stats_map = 1024 /\
  (forall id m,
     max_entries (snd (Stats.get_or_init_stats id m)) = max_entries m /\
     max_entries (snd (StatsV2.get_or_init_stats id m)) = max_entries m) /\
  (forall ctx m,
     max_entries (snd (Stats.count_context_switches ctx m)) = max_entries m) /\
  (forall ev m, max_entries (snd (StatsV2.handle ev m)) = max_entries m) /\
  (forall evs,
     max_entries (Stats.run evs Stats.stats_map) = 1024 /\
     (length (elems (Stats.run evs Stats.stats_map)) <= 1024)%nat) /\
  (forall evs,
     max_entries (StatsV2.run evs StatsV2.stats_map) = 1024 /\
     (length (elems (StatsV2.run evs StatsV2.stats_map)) <= 1024)%nat).
Proof.
  assert (Hsw : forall ctx m,
    max_entries (snd (Stats.count_context_switches ctx m)) = max_entries m).
  { intros [c|] m; auto. rewrite count_context_switches_account. simpl.
    unfold account_switch. now rewrite !(proj2 (account_attrs _ _ _)). }
  repeat split; auto.
  - apply get_or_init_stats_attrs.
  - rewrite get_or_init_stats_v2. apply get_or_init_stats_attrs.
  - intros [ctx|pid_tgid [c|]] m; cbn [StatsV2.handle]; try reflexivity.
    + rewrite count_context_switches_v2. apply Hsw.
    + rewrite count_page_faults_account. simpl. apply account_attrs.
  - apply within_capacity_run. split; simpl; auto; lia.
  - apply within_capacity_run. split; simpl; auto; lia.
  - apply within_capacity_run_v2. split; simpl; auto; lia.
  - apply within_capacity_run_v2. split; simpl; auto; lia.
Qed.

(** C10: in stats.c the scheduler hook is the only hook, and whatever events
    it has handled since the initial table, every record that can be read has
    [major_faults] and [minor_faults] equal to 0. *)
Theorem hash_variant_records_no_faults
  (evs : list (option trace_event_raw_sched_switch)) (k : Z) (s : stats_t) :
  load k (Stats.run evs Stats.stats_map) = Some s ->
  major_faults s = 0 /\ minor_faults s = 0.
Proof.
  apply (all_records_load
           (fun v => major_faults v = 0 /\ minor_faults v = 0)).
  apply all_records_run.
  - now split.
  - intros v Hv. exact Hv.
  - intros k' v [].
Qed.

Lemma hash_variant_records_no_faults_witness :
  major_faults
    {| context_switches := 2; major_faults := 0; minor_faults := 0 |} = 0 /\
  minor_faults
    {| context_switches := 2; major_faults := 0; minor_faults := 0 |} = 0.
Proof.
  apply (hash_variant_records_no_faults [switch 1 2; switch 3 1] 1).
  reflexivity.
Defined.

(** ** Further properties of the hooks *)

(** The hash table never gives a record up, whatever id is accounted for. *)
Lemma hash_account_other f id k m :
  map_type m = BPF_MAP_TYPE_HASH -> k <> id ->
  load k (account f id m) = load k m.
Proof.
  intros T Hk. unfold account. rewrite get_or_init_stats_cases.
  destruct (load id m) as [v|] eqn:E.
  - now rewrite load_store_other, load_touched.
  - destruct (Z.of_nat (length (elems m)) <? max_entries m).
    + rewrite load_store_other by auto. unfold load. simpl.
      destruct (id =? k) eqn:E'; auto. apply Z.eqb_eq in E'. congruence.
    + now rewrite T.
Qed.

Lemma account_present f id m v :
  load id m = Some v -> load id (account f id m) = Some (f v).
Proof.
  intros L. rewrite load_account_resolved.
  - unfold record_or_zero. now rewrite L.
  - rewrite (get_or_init_stats_present _ _ _ L). discriminate.
Qed.

Lemma current_pid_upper_half hi lo :
  0 <= hi < 2 ^ 32 -> 0 <= lo < 2 ^ 32 ->
  current_pid (Z.shiftl hi 32 + lo) = hi.
Proof.
  intros Hhi Hlo. unfold current_pid, u64, u32.
  rewrite Z.shiftl_mul_pow2 by lia.
  change (2 ^ 64) with (2 ^ 32 * 2 ^ 32).
  rewrite (Z.mod_small (hi * 2 ^ 32 + lo)) by nia.
  rewrite Z.shiftr_div_pow2 by lia.
  rewrite Z.div_add_l by lia. rewrite (Z.div_small lo) by lia.
  rewrite Z.add_0_r. apply Z.mod_small. lia.
Qed.

(** X1: a scheduler event leaves alone every id it does not name: whatever
    can be read under another id afterwards is what could be read before, in
    both files; and in the hash table of stats.c such a record is never lost
    either. *)
Theorem switch_leaves_other_ids
  (c : trace_event_raw_sched_switch) (m : bpf_map) (k : Z) :
  k <> u32 (prev_pid c) -> k <> u32 (next_pid c) ->
  (forall s,
     load k (snd (Stats.count_context_switches (Some c) m)) = Some s ->
     load k m = Some s) /\
  (forall s,
     load k (snd (StatsV2.count_context_switches (Some c) m)) = Some s ->
     load k m = Some s) /\
  (map_type m = BPF_MAP_TYPE_HASH ->
   load k (snd (Stats.count_context_switches (Some c) m)) = load k m).
Proof.
  intros Hp Hn. rewrite count_context_switches_v2.
  rewrite count_context_switches_account. cbn [snd]. unfold account_switch.
  assert (H : forall s,
    load k (account incr_context_switches (u32 (next_pid c))
              (account incr_context_switches (u32 (prev_pid c)) m)) = Some s ->
    load k m = Some s).
  { intros s L. apply load_account_other in L; auto.
    now apply load_account_other in L. }
  repeat split; auto.
  intros T. rewrite !hash_account_other; auto.
  now rewrite (proj1 (account_attrs _ _ _)).
Qed.

Lemma switch_leaves_other_ids_witness :
  load 3 (snd (Stats.count_context_switches (switch 1 2)
                 (table_of BPF_MAP_TYPE_HASH 4))) =
  load 3 (table_of BPF_MAP_TYPE_HASH 4).
Proof.
  destruct (switch_leaves_other_ids
              {| prev_pid := 1; next_pid := 2 |}
              (table_of BPF_MAP_TYPE_HASH 4) 3) as (_ & _ & H);
    [vm_compute; discriminate | vm_compute; discriminate |].
  apply H. reflexivity.
Defined.

(** X2: a page fault leaves alone every id other than the current process
    id: whatever can be read under another id afterwards is what could be read
    before. *)
Theorem page_fault_leaves_other_ids
  (pid_tgid : Z) (c : trace_event_raw_page_fault_user) (m : bpf_map)
  (k : Z) (s : stats_t) :
  k <> u32 (Z.shiftr (u64 pid_tgid) 32) ->
  load k (snd (StatsV2.count_page_faults pid_tgid (Some c) m)) = Some s ->
  load k m = Some s.
Proof.
  intros Hk. rewrite count_page_faults_account. cbn [snd].
  now apply load_account_other.
Qed.

Lemma page_fault_leaves_other_ids_witness :
  load 3 (table_of BPF_MAP_TYPE_LRU_HASH 4) = Some zero.
Proof.
  apply (page_fault_leaves_other_ids (Z.shiftl 7 32)
           (mk_page_fault_user 0 0 0 0 0 0 1)
           (table_of BPF_MAP_TYPE_LRU_HASH 4) 3 zero).
  - vm_compute. discriminate.
  - reflexivity.
Defined.

(** X3: every hook returns 0 on every path: with or without a payload, and
    whether or not a record could be resolved. *)
Theorem hooks_return_zero (m : bpf_map) :
  (forall ctx, fst (Stats.count_context_switches ctx m) = 0) /\
  (forall ctx, fst (StatsV2.count_context_switches ctx m) = 0) /\
  (forall pid_tgid ctx, fst (StatsV2.count_page_faults pid_tgid ctx m) = 0).
Proof.
  rewrite count_context_switches_v2.
  assert (H : forall ctx, fst (Stats.count_context_switches ctx m) = 0).
  { intros [c|]; [|reflexivity]. now rewrite count_context_switches_account. }
  repeat split; auto.
  intros pid_tgid [c|]; [|reflexivity]. now rewrite count_page_faults_account.
Qed.

(** X4: the page-fault hook keys on the upper 32 bits of the value of
    [bpf_get_current_pid_tgid()] alone: whatever the lower 32 bits are, the
    hook does the same to the table, and the fault lands in the record of the
    upper half. *)
Theorem page_fault_keyed_by_upper_half
  (hi lo : Z) (c : trace_event_raw_page_fault_user) (m : bpf_map) :
  0 <= hi < 2 ^ 32 -> 0 <= lo < 2 ^ 32 ->
  StatsV2.count_page_faults (Z.shiftl hi 32 + lo) (Some c) m =
    StatsV2.count_page_faults (Z.shiftl hi 32) (Some c) m /\
  (fst (StatsV2.get_or_init_stats hi m) <> None ->
   load hi (snd (StatsV2.count_page_faults (Z.shiftl hi 32 + lo) (Some c) m)) =
   Some (if Z.testbit (error_code c) 0
         then incr_minor_faults (record_or_zero hi m)
         else incr_major_faults (record_or_zero hi m))).
Proof.
  intros Hhi Hlo. rewrite !count_page_faults_account.
  rewrite (current_pid_upper_half hi lo Hhi Hlo).
  replace (Z.shiftl hi 32) with (Z.shiftl hi 32 + 0) by lia.
  rewrite (current_pid_upper_half hi 0 Hhi) by lia.
  split; [reflexivity|].
  intros R. cbn [snd]. rewrite load_account_resolved by exact R.
  unfold classify. now destruct (Z.testbit (error_code c) 0).
Qed.

Lemma page_fault_keyed_by_upper_half_witness :
  StatsV2.count_page_faults (Z.shiftl 7 32 + 9) (fault 1) StatsV2.stats_map =
    StatsV2.count_page_faults (Z.shiftl 7 32) (fault 1) StatsV2.stats_map /\
  load 7 (snd (StatsV2.count_page_faults (Z.shiftl 7 32 + 9) (fault 1)
                 StatsV2.stats_map)) =
    Some {| context_switches := 0; major_faults := 0; minor_faults := 1 |}.
Proof.
  destruct (page_fault_keyed_by_upper_half 7 9
              (mk_page_fault_user 0 0 0 0 0 0 1) StatsV2.stats_map)
    as [E L]; [lia | lia |].
  split; [exact E|]. apply L. vm_compute. discriminate.
Defined.

(** X5: of a page-fault payload the hook reads bit 0 of the error code and
    nothing else: two payloads that agree on that bit have the same effect,
    whatever their addresses, instruction pointers and other error bits. *)
Theorem page_fault_reads_bit_0_only
  (pid_tgid : Z) (c c' : trace_event_raw_page_fault_user) (m : bpf_map) :
  Z.testbit (error_code c) 0 = Z.testbit (error_code c') 0 ->
  StatsV2.count_page_faults pid_tgid (Some c) m =
  StatsV2.count_page_faults pid_tgid (Some c') m.
Proof.
  intros H. rewrite !count_page_faults_account. unfold classify.
  now rewrite H.
Qed.

Lemma page_fault_reads_bit_0_only_witness :
  StatsV2.count_page_faults (Z.shiftl 7 32)
    (Some (mk_page_fault_user 1 2 3 7 4096 8192 5)) StatsV2.stats_map =
  StatsV2.count_page_faults (Z.shiftl 7 32) (fault 1) StatsV2.stats_map.
Proof.
  apply (page_fault_reads_bit_0_only (Z.shiftl 7 32)
           (mk_page_fault_user 1 2 3 7 4096 8192 5)
           (mk_page_fault_user 0 0 0 0 0 0 1) StatsV2.stats_map).
  reflexivity.
Defined.

Lemma map_type_run_v2 evs m :
  map_type (StatsV2.run evs m) = map_type m.
Proof.
  revert m. induction evs as [|ev evs IH]; intros m; auto.
  change (StatsV2.run (ev :: evs) m)
    with (StatsV2.run evs (snd (StatsV2.handle ev m))).
  rewrite IH. destruct ev as [[c|]|pid_tgid [c|]]; cbn [StatsV2.handle];
    try reflexivity.
  - rewrite count_context_switches_v2, count_context_switches_account.
    cbn [snd]. unfold account_switch.
    now rewrite !(proj1 (account_attrs _ _ _)).
  - rewrite count_page_faults_account. cbn [snd]. apply account_attrs.
Qed.

Lemma map_type_run evs m : map_type (Stats.run evs m) = map_type m.
Proof.
  revert m. induction evs as [|[c|] evs IH]; intros m; auto.
  - change (Stats.run (Some c :: evs) m)
      with (Stats.run evs (snd (Stats.count_context_switches (Some c) m))).
    rewrite IH, count_context_switches_account. cbn [snd].
    unfold account_switch. now rewrite !(proj1 (account_attrs _ _ _)).
  - apply IH.
Qed.

(** X6: every table either program reaches from its initial one is well
    formed: it keeps its declared type, no id is stored twice, and every
    counter of every record that can be read lies in the unsigned 64-bit
    range. *)
Theorem reachable_tables_well_formed
  (evs : list (option trace_event_raw_sched_switch))
  (evs2 : list StatsV2.event) :
  map_type (Stats.run evs Stats.stats_map) = BPF_MAP_TYPE_HASH /\
  map_type (StatsV2.run evs2 StatsV2.stats_map) = BPF_MAP_TYPE_LRU_HASH /\
  distinct_keys (elems (Stats.run evs Stats.stats_map)) = true /\
  distinct_keys (elems (StatsV2.run evs2 StatsV2.stats_map)) = true /\
  (forall k s, load k (Stats.run evs Stats.stats_map) = Some s ->
     stats_in_range s) /\
  (forall k s, load k (StatsV2.run evs2 StatsV2.stats_map) = Some s ->
     stats_in_range s).
Proof.
  split; [now rewrite map_type_run|].
  split; [now rewrite map_type_run_v2|].
  split; [now apply distinct_keys_run|].
  split; [now apply distinct_keys_run_v2|].
  split; intros k s L.
  - exact (all_records_load _ _ _ _ (stats_in_range_run evs) L).
  - exact (all_records_load _ _ _ _ (stats_in_range_run_v2 evs2) L).
Qed.

Lemma reachable_tables_well_formed_witness :
  stats_in_range
    {| context_switches := 1; major_faults := 0; minor_faults := 1 |}.
Proof.
  destruct (reachable_tables_well_formed []
              [StatsV2.sched_switch (switch 7 8);
               StatsV2.page_fault_user (Z.shiftl 7 32) (fault 1)])
    as (_ & _ & _ & _ & _ & H).
  apply (H 7). reflexivity.
Defined.

Lemma hash_account_load f id k m s :
  map_type m = BPF_MAP_TYPE_HASH -> load k m = Some s ->
  load k (account f id m) = Some (if id =? k then f s else s).
Proof.
  intros T L. destruct (id =? k) eqn:E.
  - apply Z.eqb_eq in E. subst k. now apply account_present.
  - apply Z.eqb_neq in E. rewrite hash_account_other; auto.
Qed.

(** X7: in the hash table of stats.c a scheduler event never loses a record
    and never misses one that is there: an id present before the event is
    present after it, with [context_switches] incremented once for each side
    of the event that names it and nothing else changed.  This holds at any
    fill level, also when the table is full. *)
Theorem hash_switch_counts_present_ids
  (c : trace_event_raw_sched_switch) (m : bpf_map) (k : Z) (s : stats_t) :
  map_type m = BPF_MAP_TYPE_HASH -> load k m = Some s ->
  load k (snd (Stats.count_context_switches (Some c) m)) =
  Some (incr_if (u32 (next_pid c) =? k) (incr_if (u32 (prev_pid c) =? k) s)).
Proof.
  intros T L. rewrite count_context_switches_account. cbn [snd].
  unfold account_switch, incr_if.
  apply hash_account_load.
  - now rewrite (proj1 (account_attrs _ _ _)).
  - now apply hash_account_load.
Qed.

Lemma hash_switch_counts_present_ids_witness :
  load 3 (snd (Stats.count_context_switches (switch 3 2000)
                 (table_of BPF_MAP_TYPE_HASH 1024))) =
  Some {| context_switches := 1; major_faults := 0; minor_faults := 0 |}.
Proof.
  apply (hash_switch_counts_present_ids
           {| prev_pid := 3; next_pid := 2000 |}
           (table_of BPF_MAP_TYPE_HASH 1024) 3 zero);
    reflexivity.
Defined.

(** X8: in the LRU table of stats-v2.c resolve-or-create never returns null,
    so no event is ever dropped: after a page fault the current process id
    has a record showing the fault on top of what it held, and after a
    scheduler event the incoming id has a record showing the switch on top of
    what it held once the outgoing id was handled. *)
Theorem lru_hooks_never_drop (m : bpf_map) :
  map_type m = BPF_MAP_TYPE_LRU_HASH ->
  (forall id, fst (StatsV2.get_or_init_stats id m) = Some id) /\
  (forall pid_tgid c,
     load (u32 (Z.shiftr (u64 pid_tgid) 32))
       (snd (StatsV2.count_page_faults pid_tgid (Some c) m)) =
     Some (if Z.testbit (error_code c) 0
           then incr_minor_faults
                  (record_or_zero (u32 (Z.shiftr (u64 pid_tgid) 32)) m)
           else incr_major_faults
                  (record_or_zero (u32 (Z.shiftr (u64 pid_tgid) 32)) m))) /\
  (forall c,
     load (u32 (next_pid c))
       (snd (StatsV2.count_context_switches (Some c) m)) =
     Some (incr_context_switches
             (record_or_zero (u32 (next_pid c))
                (account_switch (u32 (prev_pid c)) m)))).
Proof.
  intros T. split; [|split].
  - intros id. rewrite get_or_init_stats_v2.
    destruct (get_or_init_stats_resolved id m (lru_always_resolves id m T))
      as [m1 G].
    now rewrite G.
  - intros pid_tgid c. rewrite count_page_faults_account. cbn [snd].
    fold (current_pid pid_tgid).
    rewrite load_account_resolved by now apply lru_always_resolves.
    unfold classify. now destruct (Z.testbit (error_code c) 0).
  - intros c. rewrite count_context_switches_v2,
      count_context_switches_account. cbn [snd]. unfold account_switch.
    apply load_account_resolved. apply lru_always_resolves.
    now rewrite (proj1 (account_attrs _ _ _)).
Qed.

Lemma lru_hooks_never_drop_witness :
  fst (StatsV2.get_or_init_stats 2000 (table_of BPF_MAP_TYPE_LRU_HASH 1024)) =
    Some 2000 /\
  load 7 (snd (StatsV2.count_context_switches (switch 2000 7)
                 (table_of BPF_MAP_TYPE_LRU_HASH 1024))) =
    Some {| context_switches := 1; major_faults := 0; minor_faults := 0 |}.
Proof.
  destruct (lru_hooks_never_drop (table_of BPF_MAP_TYPE_LRU_HASH 1024))
    as (H & _ & Hsw); [reflexivity|].
  split; [apply H|].
  exact (Hsw {| prev_pid := 2000; next_pid := 7 |}).
Defined.

Lemma length_store p f m :
  length (elems (snd (store p f m))) = length (elems m).
Proof. simpl. apply length_write. Qed.

Lemma account_length_upper f id m :
  (length (elems (account f id m)) <= S (length (elems m)))%nat.
Proof.
  unfold account. rewrite get_or_init_stats_cases.
  destruct (load id m) as [v|] eqn:E.
  - rewrite length_store. pose proof (length_touched _ _ _ E). lia.
  - destruct (Z.of_nat (length (elems m)) <? max_entries m).
    + rewrite length_store. simpl. lia.
    + destruct (map_type m); [lia|]. rewrite length_store.
      cbn [elems with_elems].
      destruct (elems m) as [|a l]; [simpl; lia|].
      change (length ((id, zero) :: removelast (a :: l)))
        with (S (length (removelast (a :: l)))).
      rewrite length_removelast_cons. simpl. lia.
Qed.

Lemma hash_account_length_lower f id m :
  map_type m = BPF_MAP_TYPE_HASH ->
  (length (elems m) <= length (elems (account f id m)))%nat.
Proof.
  intros T. unfold account. rewrite get_or_init_stats_cases.
  destruct (load id m) as [v|] eqn:E.
  - rewrite length_store. unfold touched. rewrite T. lia.
  - destruct (Z.of_nat (length (elems m)) <? max_entries m).
    + rewrite length_store. simpl. lia.
    + rewrite T. lia.
Qed.

(** X9: a hook adds at most two ids to the table when it is the scheduler
    hook and at most one when it is the page-fault hook, in both files; and in
    the hash table of stats.c, where no entry is ever freed, the number of
    stored ids never goes down. *)
Theorem table_growth_per_event (m : bpf_map) :
  (forall ctx,
     (length (elems (snd (Stats.count_context_switches ctx m))) <=
      length (elems m) + 2)%nat) /\
  (forall ctx,
     (length (elems (snd (StatsV2.count_context_switches ctx m))) <=
      length (elems m) + 2)%nat) /\
  (forall pid_tgid ctx,
     (length (elems (snd (StatsV2.count_page_faults pid_tgid ctx m))) <=
      length (elems m) + 1)%nat) /\
  (map_type m = BPF_MAP_TYPE_HASH ->
   forall ctx,
     (length (elems m) <=
      length (elems (snd (Stats.count_context_switches ctx m))))%nat).
Proof.
  rewrite count_context_switches_v2.
  assert (H : forall ctx,
    (length (elems (snd (Stats.count_context_switches ctx m))) <=
     length (elems m) + 2)%nat).
  { intros [c|]; [|simpl; lia].
    rewrite count_context_switches_account. cbn [snd]. unfold account_switch.
    pose proof (account_length_upper incr_context_switches
                  (u32 (prev_pid c)) m) as B1.
    pose proof (account_length_upper incr_context_switches
                  (u32 (next_pid c))
                  (account incr_context_switches (u32 (prev_pid c)) m)) as B2.
    lia. }
  split; [exact H|]. split; [exact H|]. split.
  - intros pid_tgid [c|]; [|simpl; lia].
    rewrite count_page_faults_account. cbn [snd].
    pose proof (account_length_upper (classify (error_code c))
                  (current_pid pid_tgid) m). lia.
  - intros T [c|]; [|simpl; lia].
    rewrite count_context_switches_account. cbn [snd]. unfold account_switch.
    pose proof (hash_account_length_lower incr_context_switches
                  (u32 (prev_pid c)) m T) as B1.
    pose proof (hash_account_length_lower incr_context_switches
                  (u32 (next_pid c))
                  (account incr_context_switches (u32 (prev_pid c)) m)) as B2.
    rewrite (proj1 (account_attrs _ _ _)) in B2. specialize (B2 T). lia.
Qed.

Lemma table_growth_per_event_witness :
  (length (elems (table_of BPF_MAP_TYPE_HASH 1024)) <=
   length (elems (snd (Stats.count_context_switches (switch 2000 3)
                         (table_of BPF_MAP_TYPE_HASH 1024)))))%nat.
Proof.
  destruct (table_growth_per_event (table_of BPF_MAP_TYPE_HASH 1024))
    as (_ & _ & _ & H).
  apply H. reflexivity.
Defined.

(** X10: in the LRU table of stats-v2.c the id just resolved is the most
    recently touched one, hence not the one evicted next, as soon as the
    table holds a second id. *)
Theorem resolved_id_is_not_next_victim (id : Z) (m : bpf_map) :
  map_type m = BPF_MAP_TYPE_LRU_HASH ->
  distinct_keys (elems m) = true ->
  (2 <= length (elems (snd (StatsV2.get_or_init_stats id m))))%nat ->
  lru_victim (snd (StatsV2.get_or_init_stats id m)) <> Some id.
Proof.
  rewrite get_or_init_stats_v2. intros T Hd Hl.
  pose proof (get_or_init_stats_distinct id m Hd) as Hd1.
  destruct (get_or_init_stats_resolved id m (lru_always_resolves id m T))
    as [m1 G].
  destruct (get_or_init_stats_head _ _ _ _ G T) as (v & l & E).
  rewrite G in *. cbn [snd] in *. unfold lru_victim. rewrite E in *.
  destruct l as [|b l]; [simpl in Hl; lia|].
  assert (Hne : b :: l <> []) by discriminate.
  destruct (exists_last Hne) as (l' & [k w] & El). rewrite El in *.
  simpl rev. rewrite rev_unit. simpl.
  simpl in Hd1. rewrite find_elem_app in Hd1.
  destruct (find_elem id l'); [discriminate|]. simpl in Hd1.
  destruct (k =? id) eqn:Ek; [discriminate|].
  apply Z.eqb_neq in Ek. congruence.
Qed.

Lemma resolved_id_is_not_next_victim_witness :
  lru_victim (snd (StatsV2.get_or_init_stats 1024
                     (table_of BPF_MAP_TYPE_LRU_HASH 1024))) <> Some 1024.
Proof.
  apply (resolved_id_is_not_next_victim 1024
           (table_of BPF_MAP_TYPE_LRU_HASH 1024)).
  - reflexivity.
  - vm_compute. reflexivity.
  - vm_compute. lia.
Defined.

(** ** Runs that stay below capacity *)

Lemma In_keys_find k l : In k (keys l) <-> find_elem k l <> None.
Proof.
  induction l as [|[k' v] l IH]; simpl.
  - split; [tauto | congruence].
  - destruct (k' =? k) eqn:E.
    + apply Z.eqb_eq in E. split; [discriminate | auto].
    + apply Z.eqb_neq in E. rewrite <- IH. tauto.
Qed.

Lemma distinct_keys_NoDup l : distinct_keys l = true -> NoDup (keys l).
Proof.
  induction l as [|[k v] l IH]; simpl; [constructor|].
  destruct (find_elem k l) eqn:E; [discriminate|]. intros H.
  constructor; auto. rewrite In_keys_find. congruence.
Qed.

(** A table whose ids all come from a set of at most 1024 ids has room for any
    further id of that set. *)
Lemma room_for_known_id S id m :
  NoDup S -> (length S <= 1024)%nat -> In id S ->
  distinct_keys (elems m) = true -> incl (keys (elems m)) S ->
  load id m = None ->
  Z.of_nat (length (elems m)) < 1024.
Proof.
  intros HS HlS Hid Hd Hincl E.
  assert (N : NoDup (id :: keys (elems m))).
  { constructor; [|now apply distinct_keys_NoDup].
    rewrite In_keys_find. unfold load in E. congruence. }
  assert (I : incl (id :: keys (elems m)) S).
  { intros x [<-|Hx]; auto. }
  pose proof (NoDup_incl_length N I) as L. simpl in L.
  unfold keys in L. rewrite length_map in L. lia.
Qed.

(** With the id present, or with room left, an accounting is honoured and
    touches no other id. *)
Lemma account_room fld id m k :
  load id m <> None \/ Z.of_nat (length (elems m)) < max_entries m ->
  load k (account (incr_field fld) id m) = bump k (load k m) (fld, id).
Proof.
  intros Hroom. unfold bump. cbn [fst snd].
  assert (R : fst (Stats.get_or_init_stats id m) <> None).
  { rewrite get_or_init_stats_cases. destruct (load id m); [discriminate|].
    destruct Hroom as [H|H]; [congruence|].
    apply Z.ltb_lt in H. rewrite H. discriminate. }
  destruct (id =? k) eqn:E.
  - apply Z.eqb_eq in E. subst k. now rewrite load_account_resolved.
  - apply Z.eqb_neq in E. unfold account. rewrite get_or_init_stats_cases.
    destruct (load id m) as [v|] eqn:L.
    + now rewrite load_store_other, load_touched by auto.
    + destruct Hroom as [H|H]; [congruence|].
      apply Z.ltb_lt in H. rewrite H. rewrite load_store_other by auto.
      unfold load. simpl. apply Z.eqb_neq in E. now rewrite E.
Qed.

Lemma keys_account f id m :
  incl (keys (elems (account f id m))) (id :: keys (elems m)).
Proof.
  intros k Hk. destruct (Z.eq_dec k id) as [->|Hne]; [now left|]. right.
  apply In_keys_find in Hk. apply In_keys_find.
  fold (load k (account f id m)) in Hk. fold (load k m).
  destruct (load k (account f id m)) as [s|] eqn:L; [|congruence].
  apply load_account_other in L; auto. congruence.
Qed.

Lemma run_accountings_load S accs :
  NoDup S -> (length S <= 1024)%nat ->
  forall m k,
    distinct_keys (elems m) = true -> max_entries m = 1024 ->
    incl (keys (elems m)) S ->
    (forall a, In a accs -> In (snd a) S) ->
    load k (run_accountings accs m) = fold_left (bump k) accs (load k m).
Proof.
  intros HS HlS. induction accs as [|[fld id] accs IH];
    intros m k Hd Hm Hincl Hin; [reflexivity|].
  change (run_accountings ((fld, id) :: accs) m)
    with (run_accountings accs (account (incr_field fld) id m)).
  assert (Hid : In id S) by apply (Hin (fld, id)), in_eq.
  rewrite IH.
  - simpl fold_left. f_equal. apply account_room.
    destruct (load id m) eqn:L; [left; discriminate|]. right. rewrite Hm.
    eapply room_for_known_id; eauto.
  - now apply account_distinct.
  - now rewrite (proj2 (account_attrs _ _ _)).
  - intros x Hx. apply keys_account in Hx. destruct Hx as [<-|Hx]; auto.
  - intros a Ha. apply Hin. now right.
Qed.

Lemma times_cons f k g id accs :
  times f k ((g, id) :: accs) =
  (if field_eqb f g && (id =? k) then 1 else 0) + times f k accs.
Proof. reflexivity. Qed.

Lemma fold_bump_some k accs :
  forall s, stats_in_range s ->
    fold_left (bump k) accs (Some s) =
    Some {| context_switches :=
              u64 (context_switches s + times ContextSwitches k accs);
            major_faults := u64 (major_faults s + times MajorFaults k accs);
            minor_faults := u64 (minor_faults s + times MinorFaults k accs) |}.
Proof.
  induction accs as [|[g id] accs IH]; intros s R.
  - destruct R as (R1 & R2 & R3). destruct s as [a b c].
    cbn [times context_switches major_faults minor_faults fold_left] in *.
    now rewrite !Z.add_0_r, !u64_small.
  - cbn [fold_left]. unfold bump at 2. cbn [fst snd]. rewrite !times_cons.
    destruct (id =? k) eqn:E.
    + rewrite IH by now apply stats_in_range_incr.
      destruct g;
        cbn [field_eqb andb incr_field incr_context_switches incr_major_faults
             incr_minor_faults context_switches major_faults minor_faults];
        rewrite ?u64_add_l; f_equal; f_equal; f_equal; lia.
    + rewrite IH by exact R. rewrite !andb_false_r.
      f_equal; f_equal; f_equal; lia.
Qed.

Lemma fold_bump_none k accs : fold_left (bump k) accs None = tally k accs.
Proof.
  induction accs as [|[g id] accs IH]; [reflexivity|].
  cbn [fold_left]. unfold bump at 2, tally, named. cbn [fst snd existsb].
  rewrite !times_cons.
  destruct (id =? k) eqn:E.
  - rewrite fold_bump_some by apply stats_in_range_incr, stats_in_range_zero.
    cbn [orb].
    destruct g;
      cbn [field_eqb andb incr_field incr_context_switches incr_major_faults
           incr_minor_faults context_switches major_faults minor_faults zero];
      rewrite ?u64_add_l; f_equal; f_equal; f_equal; lia.
  - rewrite IH. unfold tally, named. rewrite !andb_false_r. cbn [orb].
    destruct (existsb (fun a => snd a =? k) accs); [|reflexivity].
    f_equal; f_equal; f_equal; lia.
Qed.

Lemma run_accountings_app accs1 accs2 m :
  run_accountings (accs1 ++ accs2) m =
  run_accountings accs2 (run_accountings accs1 m).
Proof. apply fold_left_app. Qed.

Lemma run_accountings_switches evs m :
  Stats.run evs m = run_accountings (flat_map switch_accountings evs) m.
Proof.
  revert m. induction evs as [|ctx evs IH]; intros m; [reflexivity|].
  change (Stats.run (ctx :: evs) m)
    with (Stats.run evs (snd (Stats.count_context_switches ctx m))).
  simpl flat_map. rewrite run_accountings_app, IH. f_equal.
  destruct ctx as [c|]; [|reflexivity].
  now rewrite count_context_switches_account.
Qed.

(** From an empty table of 1024 entries a run naming at most 1024 distinct
    ids honours every accounting. *)
Lemma run_accountings_tally accs m k :
  elems m = [] -> max_entries m = 1024 ->
  (length (ids_of accs) <= 1024)%nat ->
  load k (run_accountings accs m) = tally k accs.
Proof.
  intros He Hm Hl.
  rewrite (run_accountings_load (ids_of accs)); auto.
  - unfold load. rewrite He. apply fold_bump_none.
  - apply NoDup_nodup.
  - now rewrite He.
  - rewrite He. intros x [].
  - intros a Ha. apply nodup_In. now apply in_map.
Qed.

(** X11: as long as the scheduler events handled since the initial table name
    at most 1024 distinct ids, stats.c counts every one of them: an id never
    named has no record, and a named id has a record whose
    [context_switches] is the number of event sides that named it (modulo
    2^64) and whose fault counters are 0. *)
Theorem hash_counts_every_switch_below_capacity
  (evs : list (option trace_event_raw_sched_switch)) (k : Z) :
  (length (ids_of (flat_map switch_accountings evs)) <= 1024)%nat ->
  load k (Stats.run evs Stats.stats_map) =
  tally k (flat_map switch_accountings evs).
Proof.
  intros H. rewrite run_accountings_switches.
  now apply run_accountings_tally.
Qed.

Lemma hash_counts_every_switch_below_capacity_witness :
  load 2 (Stats.run [switch 1 2; switch 2 3; None; switch 2 2]
            Stats.stats_map) =
  Some {| context_switches := 4; major_faults := 0; minor_faults := 0 |}.
Proof.
  apply (hash_counts_every_switch_below_capacity
           [switch 1 2; switch 2 3; None; switch 2 2] 2).
  vm_compute. lia.
Defined.

(** ** When records go away, and when they never come *)

Lemma full_hash_account f q m :
  map_type m = BPF_MAP_TYPE_HASH -> max_entries m = 1024 ->
  length (elems m) = 1024%nat ->
  map_type (account f q m) = BPF_MAP_TYPE_HASH /\
  max_entries (account f q m) = 1024 /\
  length (elems (account f q m)) = 1024%nat /\
  forall k, load k (account f q m) = None <-> load k m = None.
Proof.
  intros T Hm Hl.
  split; [now rewrite (proj1 (account_attrs _ _ _))|].
  split; [now rewrite (proj2 (account_attrs _ _ _))|].
  unfold account. destruct (load q m) as [v|] eqn:E.
  - rewrite (get_or_init_stats_present _ _ _ E). unfold touched. rewrite T.
    split; [now rewrite length_store|].
    intros k. destruct (Z.eq_dec k q) as [->|Hk].
    + rewrite load_store_same, E. simpl. split; congruence.
    + now rewrite load_store_other.
  - rewrite hash_full_rejects; auto. split; [exact Hl | tauto].
Qed.

(** X14: once the hash table of stats.c holds 1024 ids, its set of ids is
    frozen: whatever scheduler events follow, the ids present stay present
    and an id that is absent stays absent, so a process arriving late is never
    counted. *)
Theorem full_hash_table_is_frozen
  (m : bpf_map) (evs : list (option trace_event_raw_sched_switch)) (k : Z) :
  map_type m = BPF_MAP_TYPE_HASH -> max_entries m = 1024 ->
  length (elems m) = 1024%nat ->
  (load k (Stats.run evs m) = None <-> load k m = None).
Proof.
  revert m. induction evs as [|[c|] evs IH]; intros m T Hm Hl.
  - tauto.
  - change (Stats.run (Some c :: evs) m)
      with (Stats.run evs (snd (Stats.count_context_switches (Some c) m))).
    rewrite count_context_switches_account. cbn [snd]. unfold account_switch.
    destruct (full_hash_account incr_context_switches (u32 (prev_pid c)) m
                T Hm Hl) as (T1 & Hm1 & Hl1 & K1).
    destruct (full_hash_account incr_context_switches (u32 (next_pid c)) _
                T1 Hm1 Hl1) as (T2 & Hm2 & Hl2 & K2).
    rewrite IH by assumption. now rewrite K2, K1.
  - now apply IH.
Qed.

Lemma full_hash_table_is_frozen_witness :
  load 2000 (Stats.run [switch 2000 1; switch 5 2000; switch 2000 2000]
               (table_of BPF_MAP_TYPE_HASH 1024)) = None.
Proof.
  apply (full_hash_table_is_frozen (table_of BPF_MAP_TYPE_HASH 1024)
           [switch 2000 1; switch 5 2000; switch 2000 2000] 2000);
    reflexivity.
Defined.

(** X15: resolve-or-create never resets a record, in either file.  The id
    asked for keeps the record it had, and any other record is either kept as
    it is or gone; a record goes only from an LRU table and only when the id
    asked for was missing. *)
Theorem get_or_init_stats_never_resets
  (id : Z) (m : bpf_map) (k : Z) (v : stats_t) :
  load k m = Some v ->
  (k = id -> load k (snd (Stats.get_or_init_stats id m)) = Some v) /\
  (k = id -> load k (snd (StatsV2.get_or_init_stats id m)) = Some v) /\
  (load k (snd (Stats.get_or_init_stats id m)) = Some v \/
   (load k (snd (Stats.get_or_init_stats id m)) = None /\
    k <> id /\ map_type m = BPF_MAP_TYPE_LRU_HASH /\ load id m = None)) /\
  (load k (snd (StatsV2.get_or_init_stats id m)) = Some v \/
   (load k (snd (StatsV2.get_or_init_stats id m)) = None /\
    k <> id /\ map_type m = BPF_MAP_TYPE_LRU_HASH /\ load id m = None)).
Proof.
  intros L. rewrite get_or_init_stats_v2.
  assert (Hsame : k = id ->
            load k (snd (Stats.get_or_init_stats id m)) = Some v).
  { intros ->. rewrite (get_or_init_stats_present _ _ _ L). cbn [snd].
    now rewrite load_touched. }
  assert (Hother :
    load k (snd (Stats.get_or_init_stats id m)) = Some v \/
    (load k (snd (Stats.get_or_init_stats id m)) = None /\
     k <> id /\ map_type m = BPF_MAP_TYPE_LRU_HASH /\ load id m = None)).
  { destruct (load k (snd (Stats.get_or_init_stats id m))) as [s|] eqn:L'.
    - left. f_equal. exact (resolve_keeps_records _ _ _ _ _ L L').
    - right. split; [reflexivity|].
      rewrite get_or_init_stats_cases in L'.
      destruct (load id m) as [w|] eqn:E.
      + cbn [snd] in L'. rewrite load_touched in L' by auto. congruence.
      + assert (Hk : k <> id) by congruence.
        destruct (Z.of_nat (length (elems m)) <? max_entries m) eqn:B.
        * cbn [snd] in L'. unfold load in L'. simpl in L'.
          destruct (id =? k) eqn:E'; [discriminate|].
          unfold load in L. congruence.
        * destruct (map_type m); [cbn [snd] in L'; congruence|].
          repeat split; auto. }
  repeat split; auto.
Qed.

Lemma get_or_init_stats_never_resets_witness :
  load 5 (snd (Stats.get_or_init_stats 5
                 (snd (Stats.count_context_switches (switch 5 6)
                         StatsV2.stats_map)))) =
  Some {| context_switches := 1; major_faults := 0; minor_faults := 0 |}.
Proof.
  destruct (get_or_init_stats_never_resets 5
              (snd (Stats.count_context_switches (switch 5 6)
                      StatsV2.stats_map)) 5
              {| context_switches := 1; major_faults := 0; minor_faults := 0 |})
    as (H & _); [reflexivity|].
  apply H. reflexivity.
Defined.
